(** * FrEIA fixed transforms: invertibility and log-determinant bookkeeping

    A shallow embedding of [FrEIA/modules/fixed_transforms.py]: the four
    layer classes [PermuteRandom], [FixedLinearTransform], [LogitTransform]
    and [Fixed1x1Conv], and the [_deprecated_by] class factory.

    Conventions of the embedding.
    - Tensor entries are real numbers (Stdlib [R]); rounding of IEEE floats
      is not modelled, so the statements are ones of exact arithmetic. The
      exception is the saturation of the sigmoid, which is stated on
      binary64 floats ([sigmoid_float]).
    - A 2-D tensor handled by index manipulation or elementwise is a
      [seq (seq R)] (batch of rows); a 2-D tensor handled by linear algebra
      is a MathComp matrix ['M[R]_(B, n)], whose type carries its shape.
    - A Python exception is a value of [pyexn]; code that can raise returns
      [result].
    - Every method takes the instance and returns it back next to its
      value, so that writes to [self] are visible in the result.
    - Functions of numpy and torch ([np.random.permutation], [inverse],
      [cholesky], [det], [sigmoid], [log], [clamp], [conv2d]) are modelled
      from their documented behaviour; each model says so. *)

From Stdlib Require Import PrimFloat.
From HB Require Import structures.
From mathcomp Require Import boot algebra perm.
From Stdlib Require Import Reals Lra ClassicalEpsilon String.

Set Implicit Arguments.
Unset Strict Implicit.
Unset Printing Implicit Defensive.

Delimit Scope R_scope with Re.
Delimit Scope nat_scope with N.
Delimit Scope ring_scope with R.
Import GRing.Theory.
Local Open Scope ring_scope.

(** ** The reals as a MathComp field

    Matrices, determinants and inverses come from MathComp and want a
    [fieldType]; logarithm, exponential and square root come from the
    Standard Library reals. The instances below put the field structure of
    MathComp on [R], with the operations of the Standard Library. *)

Definition Req_bool (a b : R) : bool :=
  if Req_dec_T a b then true else false.

Lemma Req_boolP : Equality.axiom Req_bool.
Proof. by move=> a b; rewrite /Req_bool; case: Req_dec_T => h; constructor. Qed.

HB.instance Definition _ := hasDecEq.Build R Req_boolP.

Definition Rfind (P : pred R) (n : nat) : option R :=
  match excluded_middle_informative (exists x, P x) with
  | left ex => Some (proj1_sig (constructive_indefinite_description _ ex))
  | right _ => None
  end.

Lemma Rfind_correct (P : pred R) n x : Rfind P n = Some x -> P x.
Proof.
rewrite /Rfind; case: excluded_middle_informative => // ex [<-].
exact: (proj2_sig (constructive_indefinite_description _ ex)).
Qed.

Lemma Rfind_complete (P : pred R) : (exists x, P x) -> exists n, Rfind P n.
Proof.
by move=> ex; exists 0%N; rewrite /Rfind; case: excluded_middle_informative.
Qed.

Lemma Rfind_ext (P Q : pred R) : P =1 Q -> Rfind P =1 Rfind Q.
Proof.
move=> eqPQ n.
by have -> : P = Q by apply: FunctionalExtensionality.functional_extensionality.
Qed.

HB.instance Definition _ :=
  hasChoice.Build R Rfind_correct Rfind_complete Rfind_ext.

HB.instance Definition _ := GRing.isZmodule.Build R
  (fun a b c => esym (Rplus_assoc a b c)) Rplus_comm Rplus_0_l Rplus_opp_l.

Lemma R1_neq0 : (1%Re : R) != 0.
Proof. by apply/eqP; apply: R1_neq_R0. Qed.

HB.instance Definition _ := GRing.Zmodule_isComNzRing.Build R
  (fun a b c => esym (Rmult_assoc a b c)) Rmult_comm Rmult_1_l
  Rmult_plus_distr_r R1_neq0.

Lemma RmulVf (x : R) : x != 0 -> (Rinv x * x)%Re = 1.
Proof. by move/eqP => h; apply: Rinv_l. Qed.

HB.instance Definition _ := GRing.ComNzRing_isField.Build R RmulVf Rinv_0.

(** ** Python exceptions and results *)

(** The torch operations of this file that raise [RuntimeError]. *)
Inductive torch_op := OpInverse | OpCholesky.

Inductive pyexn :=
  | NameError (name : string)
  | AssertionError (msg : string)
  | ValueError (msg : string)
  | IndexError
  | RuntimeError (op : torch_op).

Inductive result (A : Type) :=
  | Ok (a : A)
  | Raise (e : pyexn).
Arguments Ok {A} a.
Arguments Raise {A} e.

Definition bind {A B} (r : result A) (k : A -> result B) : result B :=
  match r with Ok a => k a | Raise e => Raise e end.

Notation "x <- r ;; k" := (bind r (fun x => k))
  (at level 100, r at next level, right associativity).

(** [x[0]], for the list of tensors every method receives. *)
Definition item0 {A} (x : seq A) : result A :=
  match x with
  | x0 :: _ => Ok x0
  | [::] => Raise IndexError
  end.

(** A batch of rows (a tensor of shape [(batch, features)]; tensors with
    more axes are not modelled for the layers that use [rows]), and the
    shape [dims_in] of one input: the framework passes a list with one
    shape per input tensor. *)
Definition rows := seq (seq R).
Definition dims := seq (seq nat).

(** ** PermuteRandom *)

Module PermuteRandom.

Record t := Build {
  in_channels : nat;
  perm : seq nat;
  perm_inv : seq nat
}.

(** The loop of [__init__]
    [for i, p in enumerate(self.perm): self.perm_inv[p] = i],
    started at position [i]; a write outside the array raises. *)
Fixpoint fill_inverse (i : nat) (ps : seq nat) (acc : seq nat)
  : result (seq nat) :=
  match ps with
  | [::] => Ok acc
  | p :: ps' =>
      if (p < size acc)%N then fill_inverse i.+1 ps' (set_nth 0%N acc p i)
      else Raise IndexError
  end.

(** [t[:, idx]]: the columns of [t] at the positions [idx]; a position
    outside a row raises. *)
Definition take_cols (idx : seq nat) (x : rows) : result rows :=
  if all (fun row => all (fun p => (p < size row)%N) idx) x
  then Ok [seq [seq nth 0 row p | p <- idx] | row <- x]
  else Raise IndexError.

(** [np.random.seed(seed)] takes the integers from 0 to [2**32 - 1] and
    raises [ValueError] on every other integer. *)
Definition seed_ok (seed : Z) : bool :=
  Z.leb 0%Z seed && Z.ltb seed 4294967296%Z.

Section WithNumpy.

(** [np.random.seed(seed); np.random.permutation(n)]: the generator is
    numpy's and is not modelled; all that is used is that the call is a
    function of [seed] and [n]. *)
Variable np_permutation : Z -> nat -> seq nat.

Definition __init__ (dims_in : dims) (seed : Z) : result t :=
  d0 <- item0 dims_in ;;
  n <- item0 d0 ;;
  if seed_ok seed then
    let p := np_permutation seed n in
    pinv <- fill_inverse 0 p (nseq (size p) 0%N) ;;
    Ok {| in_channels := n; perm := p; perm_inv := pinv |}
  else Raise (ValueError "Seed must be between 0 and 2**32 - 1").

End WithNumpy.

Definition forward (self : t) (x : seq rows) (rev : bool)
  : result (seq rows * t) :=
  x0 <- item0 x ;;
  if ~~ rev then y <- take_cols (perm self) x0 ;; Ok ([:: y], self)
  else y <- take_cols (perm_inv self) x0 ;; Ok ([:: y], self).

Definition jacobian (self : t) (x : seq rows) (rev : bool) : result (R * t) :=
  Ok (0, self).

Definition output_dims (self : t) (input_dims : dims) : result (dims * t) :=
  if size input_dims == 1%N then Ok (input_dims, self)
  else Raise (AssertionError "Can only use 1 input").

End PermuteRandom.

(** ** Real-number helpers shared by the numeric layers *)

Definition Rltb (a b : R) : bool := if Rlt_dec a b then true else false.

(** [v.expand(B)] of a 0-dim tensor [v]: the 1-D tensor with [B] copies. *)
Definition expand (v : R) (B : nat) : seq R := nseq B v.

(** Unary minus of a 1-D tensor. *)
Definition neg (v : seq R) : seq R := [seq - a | a <- v].

(** [torch.cholesky(A)] (lower factor). It is torch's, not this
    repository's; the model is the textbook factorisation, pivot by pivot:
    with [A = [[a, _], [c, D]]] the factor is
    [[[sqrt a, 0], [c / sqrt a, cholesky (D - c c^T / a)]]].
    Only the lower triangle of [A] is read. A pivot that is not positive
    stops the factorisation ([None]; torch raises [RuntimeError]). *)
Fixpoint cholesky {n : nat} : 'M[R]_n -> option 'M[R]_n :=
  match n with
  | 0%N => fun _ => Some 0
  | n'.+1 => fun A : 'M[R]_(1 + n') =>
      let a := A 0 0 in
      if Rltb 0 a then
        let c := dlsubmx A in
        match cholesky (drsubmx A - a^-1 *: (c *m c^T)) with
        | Some L' =>
            Some (block_mx (sqrt a)%:M 0 ((sqrt a)^-1 *: c) L')
        | None => None
        end
      else None
  end.

(** ** FixedLinearTransform *)

Module FixedLinearTransform.

Record t (n : nat) := Build {
  M : 'M[R]_n;
  M_inv : 'M[R]_n;
  b : 'rV[R]_n;
  logDetM : R
}.

(** [M.t().inverse()] raises on a singular matrix, [torch.cholesky(M)] on
    one that is not positive definite. *)
Definition __init__ {n} (dims_in : dims) (M0 : 'M[R]_n) (b0 : 'rV[R]_n)
  : result (t n) :=
  if M0^T \in unitmx then
    match cholesky M0 with
    | Some L =>
        Ok {| M := M0^T; M_inv := invmx M0^T; b := b0;
              logDetM := \sum_i ln (L i i) |}
    | None => Raise (RuntimeError OpCholesky)
    end
  else Raise (RuntimeError OpInverse).

(** [x + b] for a batch [x] and a vector [b]: [b] is added to every row. *)
Definition add_bias {B n} (x : 'M[R]_(B, n)) (v : 'rV[R]_n) : 'M[R]_(B, n) :=
  \matrix_(i, j) (x i j + v 0 j).

Definition sub_bias {B n} (x : 'M[R]_(B, n)) (v : 'rV[R]_n) : 'M[R]_(B, n) :=
  \matrix_(i, j) (x i j - v 0 j).

Definition forward {B n} (self : t n) (x : seq 'M[R]_(B, n)) (rev : bool)
  : result (seq 'M[R]_(B, n) * t n) :=
  x0 <- item0 x ;;
  if ~~ rev then Ok ([:: add_bias (x0 *m M self) (b self)], self)
  else Ok ([:: sub_bias x0 (b self) *m M_inv self], self).

Definition jacobian {B n} (self : t n) (x : seq 'M[R]_(B, n)) (rev : bool)
  : result (seq R * t n) :=
  x0 <- item0 x ;;
  if rev then Ok (neg (expand (logDetM self) B), self)
  else Ok (expand (logDetM self) B, self).

Definition output_dims {n} (self : t n) (input_dims : dims)
  : result (dims * t n) :=
  Ok (input_dims, self).

End FixedLinearTransform.

(** ** LogitTransform *)

(** What a module-level name can be bound to in this file. *)
Inductive pyobj :=
  | PyModule (name : string)
  | PyClass (name : string)
  | PyFunction (name : string).

Definition namespace := seq (string * pyobj).

Fixpoint lookup (name : string) (ns : namespace) : option pyobj :=
  match ns with
  | [::] => None
  | (k, v) :: ns' => if String.eqb k name then Some v else lookup name ns'
  end.

(** The global names of [fixed_transforms.py] once the module is loaded:
    its imports, its classes, [_deprecated_by] and the three aliases. *)
Definition module_globals : namespace :=
  [:: ("np", PyModule "numpy"); ("torch", PyModule "torch");
      ("nn", PyModule "torch.nn"); ("F", PyModule "torch.nn.functional");
      ("PermuteRandom", PyClass "PermuteRandom");
      ("FixedLinearTransform", PyClass "FixedLinearTransform");
      ("LogitTransform", PyClass "LogitTransform");
      ("Fixed1x1Conv", PyClass "Fixed1x1Conv");
      ("warnings", PyModule "warnings");
      ("_deprecated_by", PyFunction "_deprecated_by");
      ("permute_layer", PyClass "deprecated_class");
      ("linear_transform", PyClass "deprecated_class");
      ("conv_1x1", PyClass "deprecated_class")]%string.

(** A name that is no local is looked up in the globals of the module,
    then among the builtins; when both fail the read raises. *)
Definition read_global (builtins : namespace) (name : string) : result pyobj :=
  match lookup name module_globals with
  | Some v => Ok v
  | None =>
      match lookup name builtins with
      | Some v => Ok v
      | None => Raise (NameError name)
      end
  end.

(** Elementwise map of a batch of rows, and [.sum(-1)]. *)
Definition map2d (f : R -> R) (x : rows) : rows :=
  [seq [seq f v | v <- row] | row <- x].

Definition sum_last (x : rows) : seq R := [seq \sum_(v <- row) v | row <- x].

(** [v.clamp(min=m)] and [torch.sigmoid], on one entry, in exact
    arithmetic ([sigmoid_float] below is the sigmoid on floats). *)
Definition clamp_min (m v : R) : R := Rmax v m.

Definition sigmoid (v : R) : R := 1 / (1 + exp (- v)).

Module LogitTransform.

(** [last_jac] starts as the Python number [0] and later holds a 1-D
    tensor, one entry per sample. *)
Inductive jac_value :=
  | Scalar (r : R)
  | Batch (v : seq R).

Record t := Build {
  scaling : R;
  last_jac : jac_value;
  mine : pyobj
}.

Definition default_scaling : R := (99 / 100)%Re.

Definition __init__ (builtins : namespace) (dims_in : dims) (scaling0 : R)
  : result t :=
  m <- read_global builtins "mine" ;;
  Ok {| scaling := scaling0; last_jac := Scalar 0; mine := m |}.

Definition safe_log (v : R) : R := ln (clamp_min (1 / 10 ^ 22)%Re v).

Definition forward (self : t) (x : seq rows) (rev : bool)
  : result (seq rows * t) :=
  x0 <- item0 x ;;
  if ~~ rev then
    let z := map2d (fun v => ((2 * v - 1) * scaling self + 1) / 2)%Re x0 in
    let transformed_x := map2d (fun v => safe_log v - safe_log (1 - v)) z in
    let jac :=
      sum_last (map2d (fun v => - safe_log v - safe_log (1 - v)) z) in
    Ok ([:: transformed_x],
        {| scaling := scaling self; last_jac := Batch jac;
           mine := mine self |})
  else
    let z := map2d sigmoid x0 in
    let jac := sum_last (map2d (fun v => safe_log v + safe_log (1 - v)) z) in
    Ok ([:: z],
        {| scaling := scaling self; last_jac := Batch jac;
           mine := mine self |}).

Definition jacobian (self : t) (x : seq rows) (rev : bool)
  : result (jac_value * t) :=
  Ok (last_jac self, self).

Definition output_dims (self : t) (input_dims : dims)
  : result (dims * t) :=
  Ok (input_dims, self).

End LogitTransform.

(** ** Fixed1x1Conv *)

(** A 4-D tensor of shape [(B, C, H, W)]: for each sample and channel, an
    image of [H] by [W] entries. *)
Definition tensor4 (B C H W : nat) := {ffun 'I_B * 'I_C -> 'M[R]_(H, W)}.

(** [F.conv2d(x, weight)] for a weight of shape [(C, C, 1, 1)], given by
    its [C] by [C] matrix: no bias, stride 1, no padding, so
    [out[b, o, h, w] = sum_i weight[o, i, 0, 0] * x[b, i, h, w]]. *)
Definition conv2d {B C H W} (x : tensor4 B C H W) (weight : 'M[R]_C)
  : tensor4 B C H W :=
  [ffun bo => \sum_i weight bo.2 i *: x (bo.1, i)].

Module Fixed1x1Conv.

(** [M] and [M_inv] are views of shape [(C, C, 1, 1)]; the two trailing
    axes of length one are left out. *)
Record t (C : nat) := Build {
  M : 'M[R]_C;
  M_inv : 'M[R]_C;
  logDetM : R
}.

Definition __init__ {C} (dims_in : dims) (M0 : 'M[R]_C) : result (t C) :=
  if M0^T \in unitmx then
    Ok {| M := M0^T; M_inv := invmx M0^T;
          logDetM := ln (Rabs (\det M0)) |}
  else Raise (RuntimeError OpInverse).

Definition forward {B C H W} (self : t C) (x : seq (tensor4 B C H W))
  (rev : bool) : result (seq (tensor4 B C H W) * t C) :=
  x0 <- item0 x ;;
  if ~~ rev then Ok ([:: conv2d x0 (M self)], self)
  else Ok ([:: conv2d x0 (M_inv self)], self).

Definition jacobian {B C H W} (self : t C) (x : seq (tensor4 B C H W))
  (rev : bool) : result (seq R * t C) :=
  x0 <- item0 x ;;
  if rev then Ok (neg (expand (logDetM self) B), self)
  else Ok (expand (logDetM self) B, self).

Definition output_dims {C} (self : t C) (input_dims : dims)
  : result (dims * t C) :=
  Ok (input_dims, self).

End Fixed1x1Conv.

(** ** Deprecated aliases *)

Inductive warning := DeprecationWarning (msg : string).

(** [_deprecated_by(orig_class)]: a subclass that overrides [__init__]
    only; it warns, then runs the constructor of [orig_class] on the same
    arguments. [forward], [jacobian] and [output_dims] are inherited. The
    warning goes to the log returned next to the result. In the message
    [self.__class__.__name__] is the name of the subclass, which is
    [deprecated_class] for every alias. *)
Definition _deprecated_by {Args T : Type} (orig_name : string)
  (orig_init : Args -> result T) (args : Args) : seq warning * result T :=
  ([:: DeprecationWarning
         ("deprecated_class is deprecated and will be removed in the public release. "
          ++ "Use " ++ orig_name ++ " instead.")%string],
   orig_init args).

Definition permute_layer (np_permutation : Z -> nat -> seq nat)
  : dims * Z -> seq warning * result PermuteRandom.t :=
  _deprecated_by "PermuteRandom"
    (fun args => PermuteRandom.__init__ np_permutation args.1 args.2).

Definition linear_transform {n}
  : dims * 'M[R]_n * 'rV[R]_n -> seq warning * result (FixedLinearTransform.t n) :=
  _deprecated_by "FixedLinearTransform"
    (fun args => FixedLinearTransform.__init__ args.1.1 args.1.2 args.2).

Definition conv_1x1 {C}
  : dims * 'M[R]_C -> seq warning * result (Fixed1x1Conv.t C) :=
  _deprecated_by "Fixed1x1Conv"
    (fun args => Fixed1x1Conv.__init__ args.1 args.2).

(** The Jacobian matrix of the map [row |-> row[idx]] on rows of [n]
    entries: output [j] is input [idx[j]], so the entry at [(j, i)] is 1
    when [idx[j] = i] and 0 otherwise. *)
Definition index_jacobian (n : nat) (idx : seq nat) : 'M[R]_n :=
  \matrix_(j, i) (nth 0%N idx j == i :> nat)%:R.

(** What forward of [LogitTransform] computes on one entry [v] when the
    clamp of [safe_log] is not hit: the logit of the scaled entry. *)
Definition scaled_logit (s v : R) : R :=
  (ln (((2 * v - 1) * s + 1) / 2) - ln (1 - ((2 * v - 1) * s + 1) / 2))%Re.

(** ** [torch.sigmoid] on floating-point entries

    The layers above are modelled in exact arithmetic. The strict bounds
    of the sigmoid are the one place where rounding decides, so the
    reverse direction of [LogitTransform] is also given on IEEE binary64
    entries. *)

(** [torch.exp] on a float. It is torch's; what is used of it is only
    that far below the underflow threshold of the format (about -745.13 in
    binary64, about -103.97 in binary32) the result is the float 0. *)
Record float_exp := FloatExp {
  fexp : float -> float;
  fexp_underflow :
    forall v, PrimFloat.ltb v (-746)%float = true -> fexp v = 0%float
}.

(** An instance: 0 below -746, and 1 elsewhere (its values elsewhere are
    not used). *)
Definition coarse_exp : float_exp.
Proof.
by refine (@FloatExp (fun v => if PrimFloat.ltb v (-746)%float
                               then 0%float else 1%float) _) => v ->.
Defined.

(** [torch.sigmoid(v) = 1 / (1 + exp(-v))] in float arithmetic. *)
Definition sigmoid_float (E : float_exp) (v : float) : float :=
  (1 / (1 + fexp E (- v)))%float.

(** The tensor that [forward(x, rev=True)] of [LogitTransform] returns
    for a batch [x[0]] of float rows. *)
Definition reverse_float (E : float_exp) (x0 : seq (seq float))
  : seq (seq float) :=
  [seq [seq sigmoid_float E v | v <- row] | row <- x0].

(** ** Reading the outcome of a method call *)

(** The instance after a call; a call that raises has written nothing. *)
Definition state_after {A S : Type} (r : result (A * S)) (s0 : S) : S :=
  match r with
  | Ok (_, s) => s
  | Raise _ => s0
  end.

Definition value_of {A S : Type} (r : result (A * S)) : result A :=
  match r with
  | Ok (v, _) => Ok v
  | Raise e => Raise e
  end.

(** ** Instances and inputs of the examples *)

(** A stand-in for numpy's generator: every seed gives [n-1, ..., 0]. *)
Definition np_reversed (seed : Z) (n : nat) : seq nat := rev (iota 0 n).

Definition permute3 : PermuteRandom.t :=
  PermuteRandom.Build 3 [:: 2; 1; 0]%N [:: 2; 1; 0]%N.

(** The fields [LogitTransform.__init__] assigns, with the default
    scaling and some object for [mine]. *)
Definition logit_fresh : LogitTransform.t :=
  LogitTransform.Build LogitTransform.default_scaling
    (LogitTransform.Scalar 0) (PyModule "mine").

(** A batch with the single entry [v]. *)
Definition single (v : R) : rows := [:: [:: v]].

(** [logit_fresh] after one reverse call on the entry 0. *)
Definition logit_after_reverse : LogitTransform.t :=
  state_after (LogitTransform.forward logit_fresh [:: single 0] true)
    logit_fresh.

Definition M4 : 'M[R]_1 := (4%Re)%:M.
Definition M2 : 'M[R]_1 := (2%Re)%:M.

(** One sample, one channel, an image of 1 by 2 pixels, all zero. *)
Definition image_1x2 : tensor4 1 1 1 2 := [ffun _ => 0].

(** The layer the constructor builds from [M4] and a zero bias. *)
Definition linear4 : FixedLinearTransform.t 1 :=
  FixedLinearTransform.Build M4 ((4%Re)^-1)%:M 0 (ln (sqrt 4)).

(** The layer the constructor builds from [M2]. *)
Definition conv2 : Fixed1x1Conv.t 1 :=
  Fixed1x1Conv.Build M2 ((2%Re)^-1)%:M (ln (Rabs 2)).

(** An instance with scaling 1. *)
Definition logit_unit : LogitTransform.t :=
  LogitTransform.Build 1 (LogitTransform.Scalar 0) (PyModule "mine").


(** Builtins that do not bind [mine]. *)
Definition some_builtins : namespace :=
  [:: ("len", PyFunction "len"); ("print", PyFunction "print")]%string.

(** * Properties *)

(** ** From the ring operations of MathComp to those of the reals *)

Lemma RplusE : GRing.add = Rplus. Proof. by []. Qed.
Lemma RoppE : GRing.opp = Ropp. Proof. by []. Qed.
Lemma RmultE : GRing.mul = Rmult. Proof. by []. Qed.
Lemma RinvE : GRing.inv = Rinv. Proof. by []. Qed.
Lemma R0E : (0%R : R) = 0%Re. Proof. by []. Qed.
Lemma R1E : (1%R : R) = 1%Re. Proof. by []. Qed.

Ltac Rlra := Stdlib.micromega.Lra.lra.
Ltac Rnra := Stdlib.micromega.Lra.nra.
Ltac to_reals := rewrite ?(RplusE, RoppE, RmultE, RinvE, R0E, R1E).

(** ** PermuteRandom: the loop of the constructor inverts the permutation *)

Section PermuteTheory.

Import PermuteRandom.

(** Running the loop over distinct, in-range positions [ps] from counter
    [i] succeeds, keeps the length, writes [i + seq.index k ps] at every
    [k] of [ps] and leaves the other cells alone. *)
Lemma fill_inverse_spec (ps : seq nat) (i : nat) (acc : seq nat) :
  uniq ps -> all (fun p => (p < size acc)%N) ps ->
  exists acc',
    [/\ fill_inverse i ps acc = Ok acc', size acc' = size acc
      & forall k, nth 0%N acc' k =
          if k \in ps then (i + seq.index k ps)%N else nth 0%N acc k].
Proof.
elim: ps i acc => [|p ps IH] i acc /=; first by exists acc.
case/andP=> pnotin uq /andP[plt inr]; rewrite plt.
have sz : size (set_nth 0%N acc p i) = size acc.
  by rewrite size_set_nth; apply/maxn_idPr.
have inr' : all (fun q => (q < size (set_nth 0%N acc p i))%N) ps by rewrite sz.
have [acc' [run sz' cells]] := IH i.+1 _ uq inr'.
exists acc'; split=> //; first by rewrite sz' sz.
move=> k; rewrite cells in_cons nth_set_nth /= [p == k]eq_sym.
case: (k =P p) => [->|_] /=; first by rewrite (negbTE pnotin) addn0.
by case: (k \in ps); rewrite ?addSnnS.
Qed.

Variable np_permutation : Z -> nat -> seq nat.

(** What numpy documents of [np.random.permutation(n)]: the result is a
    rearrangement of [0, ..., n-1]. *)
Hypothesis np_permutationP :
  forall seed n, perm_eq (np_permutation seed n) (iota 0 n).

(** A constructed layer: [perm] rearranges [0..n-1] and [perm_inv] holds,
    at each [k], the position of [k] in [perm]. *)
Lemma init_spec (dims_in : dims) (seed : Z) (l : t) :
  __init__ np_permutation dims_in seed = Ok l ->
  [/\ perm_eq (perm l) (iota 0 (in_channels l)),
      size (perm_inv l) = in_channels l
    & forall k, (k < in_channels l)%N ->
        nth 0%N (perm_inv l) k = seq.index k (perm l)].
Proof.
rewrite /__init__; case: dims_in => [|[|n d0] ds] //=.
case: (seed_ok seed) => //; set p := np_permutation seed n.
have pP : perm_eq p (iota 0 n) := np_permutationP seed n.
have szp : size p = n by rewrite (perm_size pP) size_iota.
have uq : uniq p by rewrite (perm_uniq pP) iota_uniq.
have inr : all (fun q => (q < size (nseq (size p) 0%N))%N) p.
  by apply/allP=> q; rewrite (perm_mem pP) mem_iota size_nseq szp.
have [acc' [-> sz' cells]] := fill_inverse_spec 0 uq inr.
move=> [<-] /=; split=> //; first by rewrite sz' size_nseq.
by move=> k kn; rewrite cells (perm_mem pP) mem_iota kn add0n.
Qed.

(** Indexing with [perm], then with [perm_inv], gives back a row of
    [in_channels] entries. *)
Lemma unpermute_row (l : t) (row : seq R) :
  perm_eq (perm l) (iota 0 (in_channels l)) ->
  size (perm_inv l) = in_channels l ->
  (forall k, (k < in_channels l)%N ->
     nth 0%N (perm_inv l) k = seq.index k (perm l)) ->
  size row = in_channels l ->
  [seq nth 0 [seq nth 0 row p | p <- perm l] q | q <- perm_inv l] = row.
Proof.
move=> pP szi inv szr.
have szp : size (perm l) = in_channels l by rewrite (perm_size pP) size_iota.
apply: (@eq_from_nth _ 0); first by rewrite size_map szi szr.
move=> k; rewrite size_map szi => kn.
rewrite (nth_map 0%N) ?szi // inv //.
have kin : k \in perm l by rewrite (perm_mem pP) mem_iota.
by rewrite (nth_map 0%N) ?index_mem // nth_index.
Qed.

(** [perm_inv] of a constructed layer has no repetition and stays in
    range. *)
Lemma init_perm_inv (dims_in : dims) (seed : Z) (l : t) :
  __init__ np_permutation dims_in seed = Ok l ->
  uniq (perm_inv l) /\ all (fun q => (q < in_channels l)%N) (perm_inv l).
Proof.
move=> /init_spec [pP szi inv].
have szp : size (perm l) = in_channels l by rewrite (perm_size pP) size_iota.
have mem k : (k < in_channels l)%N -> k \in perm l.
  by move=> kn; rewrite (perm_mem pP) mem_iota.
have -> : perm_inv l = [seq seq.index k (perm l) | k <- iota 0 (in_channels l)].
  apply: (@eq_from_nth _ 0%N); first by rewrite size_map size_iota.
  move=> k; rewrite szi => kn.
  by rewrite (nth_map 0%N) ?size_iota // nth_iota // add0n inv.
split.
  rewrite map_inj_in_uniq ?iota_uniq // => a c; rewrite !mem_iota /= !add0n.
  move=> /mem ain /mem cin eqi.
  by rewrite -(nth_index 0%N ain) eqi nth_index.
apply/allP=> q /mapP[k]; rewrite mem_iota /= add0n => /mem kin ->.
by rewrite -szp index_mem.
Qed.

(** Forward, then reverse, on a batch whose rows have [in_channels]
    entries: both calls return, and the second returns the batch. *)
Lemma PermuteRandom_roundtrip (dims_in : dims) (seed : Z) (l : t)
  (x0 : rows) :
  __init__ np_permutation dims_in seed = Ok l ->
  all (fun row => size row == in_channels l) x0 ->
  exists y,
    forward l [:: x0] false = Ok ([:: y], l) /\
    forward l [:: y] true = Ok ([:: x0], l).
Proof.
move=> ini shape; have [pP szi inv] := init_spec ini.
have [_ inr] := init_perm_inv ini.
have szp : size (perm l) = in_channels l by rewrite (perm_size pP) size_iota.
exists [seq [seq nth 0 row p | p <- perm l] | row <- x0].
rewrite /forward /= /take_cols.
have -> : all (fun row => all (fun p => (p < size row)%N) (perm l)) x0.
  apply/allP=> row /(allP shape) /eqP ->.
  by apply/allP=> p; rewrite (perm_mem pP) mem_iota.
split=> //=.
set y := [seq _ | row <- x0].
have -> : all (fun row => all (fun p => (p < size row)%N) (perm_inv l)) y.
  apply/allP=> r /mapP[row _ ->]; rewrite size_map szp.
  exact: inr.
rewrite /= -map_comp; congr (Ok ([:: _], l)).
rewrite -[RHS]map_id; apply/eq_in_map => row /(allP shape) /eqP szr.
exact: unpermute_row.
Qed.

End PermuteTheory.

(** ** The Jacobian of an index permutation *)

Lemma Rabs_sign (c : bool) : Rabs ((-1) ^+ c) = 1.
Proof.
case: c; rewrite ?expr1 ?expr0; last exact: Rabs_R1.
by rewrite -[RHS]Rabs_R1; apply: Rabs_Ropp.
Qed.

(** [index_jacobian n idx] is the matrix of the indexing map: output [j]
    of [row[idx]] is the product of row [j] of the matrix with [row]. *)
Lemma index_jacobian_map (n : nat) (idx : seq nat) (row : seq R) (j : 'I_n) :
  size idx = n -> size row = n -> all (fun p => (p < n)%N) idx ->
  nth 0 [seq nth 0 row p | p <- idx] j
  = \sum_(i < n) index_jacobian n idx j i * nth 0 row i.
Proof.
move=> szi szr inr.
have jlt : (j < size idx)%N by rewrite szi.
have plt : (nth 0%N idx j < n)%N by apply: (allP inr); apply: mem_nth.
rewrite (nth_map 0%N) // (bigD1 (Ordinal plt)) //= mxE eqxx mul1r.
rewrite big1 ?addr0 // => i neq; rewrite mxE.
have /negbTE -> : nth 0%N idx j != i :> nat.
  by apply: contraNneq neq => eqi; apply/eqP/val_inj.
by rewrite mul0r.
Qed.

(** A rearrangement of [0..n-1] has a Jacobian of determinant 1 or -1. *)
Lemma index_jacobian_det (n : nat) (idx : seq nat) :
  size idx = n -> uniq idx -> all (fun p => (p < n)%N) idx ->
  Rabs (\det (index_jacobian n idx)) = 1.
Proof.
case: n => [|n] szi uq inr; first by rewrite det_mx00; apply: Rabs_R1.
have bound (j : 'I_n.+1) : (nth 0%N idx j < n.+1)%N.
  by apply: (allP inr); apply: mem_nth; rewrite szi.
pose f (j : 'I_n.+1) : 'I_n.+1 := inord (nth 0%N idx j).
have finj : injective f.
  move=> a c /(congr1 val); rewrite /f /= !inordK // => /eqP.
  by rewrite nth_uniq ?szi // => /eqP/val_inj.
have -> : index_jacobian n.+1 idx = perm_mx (perm finj).
  apply/matrixP=> j i; rewrite !mxE permE /f.
  by rewrite -[inord _ == i]val_eqE /= inordK.
by rewrite det_perm Rabs_sign.
Qed.

(** ** FixedLinearTransform *)

Section LinearTheory.

Import FixedLinearTransform.

Variables (n : nat).

(** What a successful constructor call has stored. *)
Lemma Linear_init_spec (dims_in : dims) (M0 : 'M[R]_n) (b0 : 'rV[R]_n)
  (l : t n) :
  __init__ dims_in M0 b0 = Ok l ->
  [/\ M0 \in unitmx, M l = M0^T, M_inv l = invmx M0^T, b l = b0
    & exists2 L, cholesky M0 = Some L & logDetM l = \sum_i ln (L i i)].
Proof.
rewrite /__init__; case: ifP => // unitT; case ch: (cholesky M0) => [L|] //.
by move=> [<-] /=; split=> //; [rewrite -unitmx_tr | exists L].
Qed.

Lemma sub_add_bias (B : nat) (x : 'M[R]_(B, n)) (v : 'rV[R]_n) :
  sub_bias (add_bias x v) v = x.
Proof. by apply/matrixP=> i j; rewrite !mxE addrK. Qed.

(** Forward, then reverse: both calls return, and the second returns the
    batch it started from. *)
Lemma FixedLinearTransform_roundtrip (B : nat) (dims_in : dims)
  (M0 : 'M[R]_n) (b0 : 'rV[R]_n) (l : t n) (x : 'M[R]_(B, n)) :
  __init__ dims_in M0 b0 = Ok l ->
  exists y,
    forward l [:: x] false = Ok ([:: y], l) /\
    forward l [:: y] true = Ok ([:: x], l).
Proof.
move=> /Linear_init_spec [unitM eqM eqMi eqb _].
exists (add_bias (x *m M l) (b l)); split=> //.
rewrite /forward /= sub_add_bias eqM eqMi mulmxK //.
by rewrite unitmx_tr.
Qed.

End LinearTheory.

(** The factor of a positive 1 by 1 matrix. *)
Lemma cholesky_scalar (a : R) :
  (0 < a)%Re -> cholesky (a%:M : 'M[R]_1) = Some ((sqrt a)%:M).
Proof.
move=> apos; rewrite /cholesky.
have -> : (a%:M : 'M[R]_1) 0 0 = a by rewrite mxE eqxx mulr1n.
have -> : Rltb 0 a by rewrite /Rltb; case: Rlt_dec.
congr Some; rewrite [LHS]mx11_scalar.
have := block_mxEul (sqrt a)%:M (0 : 'M_(1, 0))
          ((sqrt a)^-1 *: dlsubmx (a%:M : 'M[R]_(1 + 0))) (0 : 'M_0) 0 0.
by rewrite lshift0 => ->; rewrite mxE eqxx mulr1n.
Qed.

(** The constructor on a positive 1 by 1 matrix. *)
Lemma Linear_init_scalar (dims_in : dims) (a : R) (b0 : 'rV[R]_1) :
  (0 < a)%Re ->
  FixedLinearTransform.__init__ dims_in (a%:M : 'M[R]_1) b0
  = Ok (FixedLinearTransform.Build (a%:M) (a^-1)%:M b0 (ln (sqrt a))).
Proof.
move=> apos; rewrite /FixedLinearTransform.__init__ tr_scalar_mx.
have aunit : a \is a GRing.unit.
  by rewrite unitfE; apply/eqP => a0; move: apos; rewrite a0; apply: Rlt_irrefl.
rewrite unitmxE det_scalar1 aunit cholesky_scalar // invmx_scalar.
by rewrite big_ord1 mxE eqxx mulr1n.
Qed.

(** ** Fixed1x1Conv *)

Section ConvTheory.

Import Fixed1x1Conv.

Variables (B C H W : nat).

Implicit Types (x : tensor4 B C H W) (U V : 'M[R]_C).

Lemma conv2d_comp x U V : conv2d (conv2d x U) V = conv2d x (V *m U).
Proof.
apply/ffunP=> -[s o]; rewrite !ffunE /=.
under eq_bigr => i _ do rewrite ffunE /= scaler_sumr.
rewrite exchange_big /=; apply: eq_bigr => j _.
rewrite mxE scaler_suml; apply: eq_bigr => i _.
by rewrite scalerA.
Qed.

Lemma conv2d_id x : conv2d x 1%:M = x.
Proof.
apply/ffunP=> -[s o]; rewrite ffunE /= (bigD1 o) //= mxE eqxx scale1r.
rewrite big1 ?addr0 // => i neq.
by rewrite mxE eq_sym (negbTE neq) scale0r.
Qed.

Lemma Conv_init_spec (dims_in : dims) (M0 : 'M[R]_C) (l : t C) :
  __init__ dims_in M0 = Ok l ->
  [/\ M0 \in unitmx, M l = M0^T, M_inv l = invmx M0^T
    & logDetM l = ln (Rabs (\det M0))].
Proof.
rewrite /__init__; case: ifP => // unitT [<-] /=.
by split=> //; rewrite -unitmx_tr.
Qed.

(** Forward, then reverse: both calls return, and the second returns the
    tensor it started from. *)
Lemma Fixed1x1Conv_roundtrip (dims_in : dims) (M0 : 'M[R]_C) (l : t C) x :
  __init__ dims_in M0 = Ok l ->
  exists y,
    forward l [:: x] false = Ok ([:: y], l) /\
    forward l [:: y] true = Ok ([:: x], l).
Proof.
move=> /Conv_init_spec [unitM eqM eqMi _].
exists (conv2d x (M l)); split=> //.
rewrite /forward /= conv2d_comp eqM eqMi mulVmx ?conv2d_id //.
by rewrite unitmx_tr.
Qed.

(** X12. What [jacobian] returns: the stored [log |det M|], once per sample,
    whatever the height and width of the images. *)
Lemma Fixed1x1Conv_jacobian_spec (dims_in : dims) (M0 : 'M[R]_C) (l : t C) x
  (rev : bool) :
  __init__ dims_in M0 = Ok l ->
  jacobian l [:: x] rev
  = Ok (nseq B (if rev then - ln (Rabs (\det M0)) else ln (Rabs (\det M0))), l).
Proof.
move=> /Conv_init_spec [_ _ _ eqd]; rewrite /jacobian /= eqd.
by case: rev => //; rewrite /neg /expand map_nseq.
Qed.

End ConvTheory.

(** The constructor on a nonzero 1 by 1 matrix. *)
Lemma Conv_init_scalar (dims_in : dims) (a : R) :
  a <> 0 ->
  Fixed1x1Conv.__init__ dims_in (a%:M : 'M[R]_1)
  = Ok (Fixed1x1Conv.Build (a%:M) (a^-1)%:M (ln (Rabs a))).
Proof.
move=> /eqP a0; rewrite /Fixed1x1Conv.__init__ tr_scalar_mx.
by rewrite unitmxE det_scalar1 unitfE a0 invmx_scalar.
Qed.

(** ** LogitTransform: real-number facts *)

Lemma sigmoid_bounds (v : R) : (0 < sigmoid v < 1)%Re.
Proof.
rewrite /sigmoid; to_reals.
have epos := exp_pos (- v)%Re; set e := exp _ in epos *.
have inv1 : ((1 + e) * / (1 + e) = 1)%Re by apply: Rinv_r; Rlra.
have tpos : (0 < / (1 + e))%Re by apply: Rinv_0_lt_compat; Rlra.
by split; Rnra.
Qed.

Lemma sigmoid_logit (z : R) :
  (0 < z < 1)%Re -> sigmoid (ln z - ln (1 - z)) = z.
Proof.
move=> [z0 z1]; rewrite /sigmoid; to_reals.
have -> : (- (ln z + - ln (1 + - z)))%Re = (ln (1 + - z) + - ln z)%Re by Rlra.
rewrite exp_plus exp_Ropp !exp_ln; try Rlra.
by field; Rlra.
Qed.

Lemma safe_log_id (z : R) :
  (1 / 10 ^ 22 <= z)%Re -> LogitTransform.safe_log z = ln z.
Proof. by move=> le; rewrite /LogitTransform.safe_log /clamp_min Rmax_left. Qed.

(** The sigmoid undoes the logit of [forward] on an entry [z] that the
    clamp of [safe_log] leaves alone. *)
Lemma Logit_entry_roundtrip (z : R) :
  (1 / 10 ^ 22 <= z <= 1 - 1 / 10 ^ 22)%Re ->
  sigmoid (LogitTransform.safe_log z - LogitTransform.safe_log (1 - z)) = z.
Proof.
move=> [lo hi]; have small : (0 < 1 / 10 ^ 22)%Re.
  by apply: Rdiv_lt_0_compat; [Rlra | apply: pow_lt; Rlra].
rewrite !safe_log_id //; last by apply: sigmoid_logit; Rlra.
by to_reals; Rlra.
Qed.

(** X14. Forward, then reverse, on a batch whose scaled entries the clamp
    leaves alone: what comes back is the batch of the scaled entries
    [((2 v - 1) * scaling + 1) / 2], not the batch itself. *)
Lemma LogitTransform_roundtrip_scaled (l : LogitTransform.t) (x0 : rows) :
  let scale v := (((2 * v - 1) * LogitTransform.scaling l + 1) / 2)%Re in
  (forall row v, row \in x0 -> v \in row ->
     (1 / 10 ^ 22 <= scale v <= 1 - 1 / 10 ^ 22)%Re) ->
  exists y l1 l2,
    LogitTransform.forward l [:: x0] false = Ok ([:: y], l1) /\
    LogitTransform.forward l1 [:: y] true = Ok ([:: map2d scale x0], l2).
Proof.
move=> scale bnd; do 3!eexists; split.
  by rewrite /LogitTransform.forward /=.
rewrite /LogitTransform.forward /=; congr (Ok ([:: _], _)).
rewrite /map2d -!map_comp; apply/eq_in_map => row rin /=.
rewrite -!map_comp; apply/eq_in_map => v vin /=.
exact: Logit_entry_roundtrip (bnd row v rin vin).
Qed.


(** ** What [logDetM] of FixedLinearTransform holds *)

(** One step of the factorisation: the block factor multiplied by its
    transpose gives back the symmetric matrix. *)
Lemma cholesky_step (n : nat) (A : 'M[R]_(1 + n)) (d : R) (L' : 'M[R]_n) :
  A^T = A -> d != 0 -> d * d = A 0 0 ->
  L' *m L'^T = drsubmx A - (A 0 0)^-1 *: (dlsubmx A *m (dlsubmx A)^T) ->
  block_mx d%:M 0 (d^-1 *: dlsubmx A) L'
    *m (block_mx d%:M 0 (d^-1 *: dlsubmx A) L')^T = A.
Proof.
move=> symA dne dd eqL'.
have symc : (dlsubmx A)^T = ursubmx A by rewrite trmx_dlsub symA.
rewrite tr_block_mx mulmx_block -[RHS]submxK.
rewrite tr_scalar_mx !trmx0 !mulmx0 !addr0 mul0mx addr0 eqL'.
congr block_mx.
- rewrite -scalar_mxM dd [RHS]mx11_scalar; congr (_%:M).
  by rewrite !mxE !lshift0.
- by rewrite linearZ /= mul_scalar_mx scalerA divff // scale1r symc.
- by rewrite -scalemxAl mul_mx_scalar scalerA mulVf // scale1r.
rewrite linearZ /= -scalemxAl -scalemxAr scalerA -invfM dd.
by rewrite addrC subrK.
Qed.

(** The factor [L] returned for a symmetric matrix [A] is lower
    triangular with a positive diagonal, and [L L^T = A]. *)
Lemma cholesky_spec (n : nat) (A L : 'M[R]_n) :
  A^T = A -> cholesky A = Some L ->
  [/\ is_trig_mx L, forall i, (0 < L i i)%Re & L *m L^T = A].
Proof.
elim: n A L => [|n IH] A L symA.
  move=> _; split; first by rewrite [L]flatmx0 mx0_is_trig.
    by case.
  by rewrite [LHS]flatmx0 [RHS]flatmx0.
rewrite /=; set a := A 0 0; set c := dlsubmx _; set S := _ - _.
rewrite /Rltb; case: Rlt_dec => // apos.
case chS : (cholesky S) => [L'|] // [<-].
have dpos : (0 < sqrt a)%Re by apply: sqrt_lt_R0.
have dd : sqrt a * sqrt a = a by apply: sqrt_sqrt; Rlra.
have dne : sqrt a != 0.
  by apply/eqP => d0; move: dpos; rewrite d0; apply: Rlt_irrefl.
have symS : S^T = S.
  by rewrite /S linearB linearZ /= trmx_drsub symA trmx_mul trmxK.
have [trigL' posL' eqL'] := IH S L' symS chS.
split.
- by rewrite (@is_trig_block_mx _ 1 n 1 n) // eqxx mx11_is_trig.
- move=> i; case: (@split_ordP 1 n i) => k ->.
    by rewrite [X in (0 < X)%Re]block_mxEul ord1 mxE eqxx mulr1n.
  by rewrite [X in (0 < X)%Re]block_mxEdr.
exact: cholesky_step.
Qed.

(** The logarithm of a product of positive reals. *)
Lemma ln_prod (I : Type) (r : seq I) (F : I -> R) :
  (forall i, (0 < F i)%Re) ->
  (0 < \prod_(i <- r) F i)%Re /\
  ln (\prod_(i <- r) F i) = \sum_(i <- r) ln (F i).
Proof.
move=> pos; elim: r => [|i r [ppos IH]].
  by rewrite !big_nil; split; [to_reals; Rlra | apply: ln_1].
rewrite !big_cons; to_reals; split; first exact: Rmult_lt_0_compat.
by rewrite ln_mult // IH.
Qed.

(** X7. For a symmetric matrix accepted by the constructor, [logDetM] is
    half the logarithm of the determinant, which is positive. *)
Lemma FixedLinearTransform_logDetM_half (n : nat) (dims_in : dims)
  (M0 : 'M[R]_n) (b0 : 'rV[R]_n) (l : FixedLinearTransform.t n) :
  M0^T = M0 -> FixedLinearTransform.__init__ dims_in M0 b0 = Ok l ->
  (0 < \det M0)%Re /\
  FixedLinearTransform.logDetM l = (ln (Rabs (\det M0)) / 2)%Re.
Proof.
move=> symM /Linear_init_spec [_ _ _ _ [L chL ->]].
have [trigL posL eqL] := cholesky_spec symM chL.
have [ppos lnp] := ln_prod (index_enum 'I_n) posL.
have -> : \det M0 = (\prod_i L i i * \prod_i L i i)%Re.
  by rewrite -eqL det_mulmx det_tr det_trig.
split; first exact: Rmult_lt_0_compat.
rewrite Rabs_pos_eq; first by apply: Rlt_le; apply: Rmult_lt_0_compat.
have half (s : R) : s = ((s + s) / 2)%Re by Rlra.
by rewrite ln_mult // lnp; apply: half.
Qed.

Lemma ln2_pos : (0 < ln 2)%Re.
Proof. by rewrite -ln_1; apply: ln_increasing; Rlra. Qed.

Lemma sqrt4 : sqrt 4 = 2%Re.
Proof.
have -> : 4%Re = (2 * 2)%Re by Rlra.
by apply: sqrt_square; Rlra.
Qed.

Lemma ln4 : ln 4 = (2 * ln 2)%Re.
Proof.
have -> : 4%Re = (2 * 2)%Re by Rlra.
by rewrite ln_mult; Rlra.
Qed.

(** * The claims *)

(** C1 (fails on the code: [LogitTransform]). With the default scaling
    0.99, forward on the entry 0 and then reverse on the result returns
    0.005 = ((2*0 - 1) * 0.99 + 1) / 2, not 0: reverse applies the sigmoid
    but never undoes the scaling that forward applied. *)
Theorem LogitTransform_reverse_not_inverse :
  exists y l1 l2,
    [/\ LogitTransform.forward logit_fresh [:: single 0] false
          = Ok ([:: y], l1),
        LogitTransform.forward l1 [:: y] true
          = Ok ([:: single (1 / 200)%Re], l2)
      & single (1 / 200)%Re <> single 0].
Proof.
have bnd : (1 / 10 ^ 22 <= ((2 * 0 - 1) * (99 / 100) + 1) / 2
            <= 1 - 1 / 10 ^ 22)%Re by Rlra.
have val : (((2 * 0 - 1) * (99 / 100) + 1) / 2)%Re = (1 / 200)%Re by Rlra.
do 3!eexists; split; first by rewrite /LogitTransform.forward /=.
  rewrite /LogitTransform.forward /= /single.
  by rewrite /LogitTransform.default_scaling (Logit_entry_roundtrip bnd) val.
by move=> [] e; move: e; to_reals; Rlra.
Qed.

(** C2 (fails on the code). For [M = [[4]]] the constructor succeeds and
    stores [logDetM = log (sqrt 4) = log 2], the sum of the logarithms of
    the diagonal of the Cholesky factor; [jacobian] returns [log 2] and
    [-log 2], while [log |det M| = log 4 = 2 log 2]. *)
Theorem FixedLinearTransform_jacobian_is_half_logdet :
  exists l,
    [/\ FixedLinearTransform.__init__ [:: [:: 1%N]] M4 0 = Ok l,
        FixedLinearTransform.jacobian l [:: (0 : 'M[R]_(1, 1))] false
          = Ok ([:: ln 2], l),
        FixedLinearTransform.jacobian l [:: (0 : 'M[R]_(1, 1))] true
          = Ok ([:: - ln 2], l),
        ln (Rabs (\det M4)) = (2 * ln 2)%Re
      & ln 2 <> (2 * ln 2)%Re].
Proof.
have pos4 : (0 < 4)%Re by Rlra.
eexists; split; first exact: Linear_init_scalar.
- by rewrite /FixedLinearTransform.jacobian /= /expand /= sqrt4.
- by rewrite /FixedLinearTransform.jacobian /= /expand /= sqrt4.
- by rewrite /M4 det_scalar1 Rabs_pos_eq ?ln4 //; Rlra.
by have := ln2_pos; Rlra.
Qed.

(** C3 (fails on the code). For [M = [[2]]] and one image of 1 by 2
    pixels the layer doubles both pixels, so the log-determinant of its
    Jacobian is [H * W * log |det M| = 2 log 2]; [jacobian] returns
    [log 2] and [-log 2], the stored [log |det M|] with no factor for the
    pixels. *)
Theorem Fixed1x1Conv_jacobian_misses_pixels :
  exists l,
    [/\ Fixed1x1Conv.__init__ [:: [:: 1; 1; 2]%N] M2 = Ok l,
        Fixed1x1Conv.jacobian l [:: image_1x2] false = Ok ([:: ln 2], l),
        Fixed1x1Conv.jacobian l [:: image_1x2] true = Ok ([:: - ln 2], l),
        (forall x : tensor4 1 1 1 2, exists2 y,
           Fixed1x1Conv.forward l [:: x] false = Ok ([:: y], l)
           & forall i, y i = 2%Re *: x i)
      & (1 * 2)%N%:R * ln (Rabs (\det M2)) = (2 * ln 2)%Re
        /\ ln 2 <> (2 * ln 2)%Re].
Proof.
have abs2 : Rabs 2 = 2%Re by apply: Rabs_pos_eq; Rlra.
have ne2 : 2%Re <> 0%Re by Rlra.
eexists; split; first exact: Conv_init_scalar.
- by rewrite /Fixed1x1Conv.jacobian /= /expand /= abs2.
- by rewrite /Fixed1x1Conv.jacobian /= /expand /= abs2.
- move=> x; eexists; first by rewrite /Fixed1x1Conv.forward /=.
  case=> s o; rewrite ffunE /= big_ord1 mxE !ord1 eqxx mulr1n.
  by congr (_ *: x (_, _)); apply/val_inj; rewrite /= ?ord1.
split; first by rewrite /M2 det_scalar1 abs2 mul1n mulr2n; to_reals; Rlra.
by have := ln2_pos; Rlra.
Qed.





(** C5 (fails on the code: [LogitTransform.forward] assigns
    [self.last_jac]). On a freshly initialised instance, reverse on the
    entry 0 replaces [last_jac = 0] by the tensor [[2 log (1/2)]]; and
    [jacobian] on one and the same input returns 0 before that call and
    the tensor after it. *)
Lemma LogitTransform_forward_writes_last_jac :
  [/\ LogitTransform.last_jac logit_after_reverse
        = LogitTransform.Batch [:: (ln (1 / 2) + ln (1 / 2))%Re],
      logit_after_reverse <> logit_fresh,
      value_of (LogitTransform.jacobian logit_fresh [:: single 0] true)
        = Ok (LogitTransform.Scalar 0)
    & value_of (LogitTransform.jacobian logit_after_reverse [:: single 0] true)
        = Ok (LogitTransform.Batch [:: (ln (1 / 2) + ln (1 / 2))%Re])].
Proof.
have sig0 : sigmoid 0 = (1 / 2)%Re.
  by rewrite /sigmoid; to_reals; rewrite Ropp_0 exp_0; Rlra.
have half : (1 - 1 / 2)%Re = (1 / 2)%Re by Rlra.
have log_half : LogitTransform.safe_log (1 / 2)%Re = ln (1 / 2).
  by apply: safe_log_id; Rlra.
have jac : LogitTransform.last_jac logit_after_reverse
           = LogitTransform.Batch [:: (ln (1 / 2) + ln (1 / 2))%Re].
  rewrite /logit_after_reverse /LogitTransform.forward /= /sum_last /=.
  by rewrite big_seq1 sig0; to_reals; rewrite half log_half.
split=> //.
by rewrite /LogitTransform.jacobian /value_of jac.
Qed.

(** C5, as amended. [PermuteRandom], [FixedLinearTransform] and
    [Fixed1x1Conv]: forward and jacobian return the instance as it was.
    [LogitTransform]: jacobian returns the instance as it was; forward
    keeps [scaling] and [mine] and stores in [last_jac], for each row of
    [x[0]], the sum over the row of [-safe_log z - safe_log (1 - z)] for
    the scaled entries [z = ((2 v - 1) * scaling + 1) / 2] (forward
    direction), or of [safe_log z + safe_log (1 - z)] for [z = sigmoid v]
    (reverse direction); the tensors forward returns do not depend on an
    earlier forward call; jacobian returns the [last_jac] of the latest
    forward call, whatever its own arguments. *)
Theorem layers_frame :
  [/\ forall (l : PermuteRandom.t) x rev,
        state_after (PermuteRandom.forward l x rev) l = l /\
        state_after (PermuteRandom.jacobian l x rev) l = l,
      forall n B (l : FixedLinearTransform.t n) (x : seq 'M[R]_(B, n)) rev,
        state_after (FixedLinearTransform.forward l x rev) l = l /\
        state_after (FixedLinearTransform.jacobian l x rev) l = l,
      forall B C H W (l : Fixed1x1Conv.t C) (x : seq (tensor4 B C H W)) rev,
        state_after (Fixed1x1Conv.forward l x rev) l = l /\
        state_after (Fixed1x1Conv.jacobian l x rev) l = l,
      forall (l : LogitTransform.t) x rev,
        [/\ state_after (LogitTransform.jacobian l x rev) l = l,
            LogitTransform.scaling
              (state_after (LogitTransform.forward l x rev) l)
            = LogitTransform.scaling l
          & LogitTransform.mine
              (state_after (LogitTransform.forward l x rev) l)
            = LogitTransform.mine l]
    & forall (l : LogitTransform.t) x0 xs rev,
        let l' := state_after (LogitTransform.forward l (x0 :: xs) rev) l in
        [/\ LogitTransform.last_jac l'
            = LogitTransform.Batch
                (if rev then
                   sum_last
                     (map2d (fun z => LogitTransform.safe_log z
                                      + LogitTransform.safe_log (1 - z))
                        (map2d sigmoid x0))
                 else
                   sum_last
                     (map2d (fun z => - LogitTransform.safe_log z
                                      - LogitTransform.safe_log (1 - z))
                        (map2d (fun v => ((2 * v - 1)
                                          * LogitTransform.scaling l + 1)
                                         / 2)%Re x0))),
            forall x rev', value_of (LogitTransform.forward l' x rev')
                           = value_of (LogitTransform.forward l x rev')
          & forall x rev', value_of (LogitTransform.jacobian l' x rev')
                           = Ok (LogitTransform.last_jac l')]].
Proof.
split.
- move=> l x rev; split=> //; rewrite /PermuteRandom.forward.
  case: x => [|x0 xs] //=; case: rev => /=.
    by case: (PermuteRandom.take_cols _ _).
  by case: (PermuteRandom.take_cols _ _).
- move=> n B l x rev; rewrite /FixedLinearTransform.forward.
  rewrite /FixedLinearTransform.jacobian.
  by case: x => [|x0 xs] //=; case: rev.
- move=> B C H W l x rev; rewrite /Fixed1x1Conv.forward.
  rewrite /Fixed1x1Conv.jacobian.
  by case: x => [|x0 xs] //=; case: rev.
- move=> l x rev; rewrite /LogitTransform.forward.
  by case: x => [|x0 xs] //=; case: rev.
move=> l x0 xs rev; rewrite /LogitTransform.forward /=.
by case: rev => /=; split.
Qed.

(** C6 (fails on floating-point entries). On the float 1000 the
    exponential underflows to 0 and reverse returns exactly 1, which is
    not strictly below 1; this is the value that the clamp in
    [safe_log (1 - z)] guards against. *)
Lemma LogitTransform_reverse_saturates_in_floats :
  [/\ forall E : float_exp,
        reverse_float E [:: [:: 1000%float]] = [:: [:: 1%float]],
      reverse_float coarse_exp [:: [:: 1000%float]] = [:: [:: 1%float]]
    & PrimFloat.ltb 1%float 1%float = false].
Proof.
have sat E : reverse_float E [:: [:: 1000%float]] = [:: [:: 1%float]].
  rewrite /reverse_float /= /sigmoid_float.
  by rewrite (@fexp_underflow E (- 1000)%float (erefl _)).
by split.
Qed.

(** C6, as amended: in exact arithmetic. On entries that are real
    numbers, reverse returns the sigmoid of every entry of the first
    input, and each returned entry lies strictly between 0 and 1. *)
Theorem LogitTransform_reverse_in_unit_interval (l : LogitTransform.t)
  (x0 : rows) (xs : seq rows) :
  exists z l',
    [/\ LogitTransform.forward l (x0 :: xs) true = Ok ([:: z], l'),
        z = map2d sigmoid x0
      & all (all (fun v => Rltb 0 v && Rltb v 1)) z].
Proof.
do 2!eexists; split; [by rewrite /LogitTransform.forward /= | by [] |].
apply/allP=> r /mapP[row _ ->]; apply/allP=> w /mapP[v _ ->].
have [lo hi] := sigmoid_bounds v.
by rewrite /Rltb; case: Rlt_dec => //; case: Rlt_dec.
Qed.

(** C7. For a constructed layer, [jacobian] returns 0 in both
    directions, and 0 is the log-determinant of the Jacobian of the map
    that the direction applies. That map is linear: on a row of
    [in_channels] entries a call returns the product of the row with the
    matrix [index_jacobian] of [perm] (forward) or of [perm_inv]
    (reverse), which is therefore its Jacobian; the determinant of that
    matrix has absolute value 1, so its logarithm is 0. *)
Theorem PermuteRandom_jacobian_is_logdet (np : Z -> nat -> seq nat)
  (dims_in : dims) (seed : Z) (l : PermuteRandom.t) (x : seq rows)
  (rev : bool) :
  (forall s n, perm_eq (np s n) (iota 0 n)) ->
  PermuteRandom.__init__ np dims_in seed = Ok l ->
  let J := index_jacobian (PermuteRandom.in_channels l)
             (if rev then PermuteRandom.perm_inv l
              else PermuteRandom.perm l) in
  [/\ PermuteRandom.jacobian l x rev = Ok (0, l),
      forall row, size row = PermuteRandom.in_channels l ->
        exists2 y, PermuteRandom.forward l [:: [:: row]] rev
                   = Ok ([:: [:: y]], l)
        & forall j : 'I_(PermuteRandom.in_channels l),
            nth 0 y j = \sum_i J j i * nth 0 row i,
      Rabs (\det J) = 1
    & ln (Rabs (\det J)) = 0].
Proof.
move=> npP ini J.
have [pP szi _] := init_spec npP ini; have [uqi inri] := init_perm_inv npP ini.
have szp : size (PermuteRandom.perm l) = PermuteRandom.in_channels l.
  by rewrite (perm_size pP) size_iota.
have uqp : uniq (PermuteRandom.perm l) by rewrite (perm_uniq pP) iota_uniq.
have inrp : all (fun p => (p < PermuteRandom.in_channels l)%N)
              (PermuteRandom.perm l).
  by apply/allP=> p; rewrite (perm_mem pP) mem_iota.
have detJ : Rabs (\det J) = 1.
  by rewrite /J; case: (rev); apply: index_jacobian_det.
split=> //; last by rewrite detJ ln_1.
move=> row szr; rewrite /PermuteRandom.forward /= /PermuteRandom.take_cols.
rewrite /J; case: (rev) => /=; rewrite andbT szr ?inri ?inrp /=.
  by eexists; first by []; move=> j; apply: index_jacobian_map.
by eexists; first by []; move=> j; apply: index_jacobian_map.
Qed.

Lemma np_reversedP (s : Z) (n : nat) : perm_eq (np_reversed s n) (iota 0 n).
Proof. by rewrite /np_reversed perm_rev. Qed.

Lemma PermuteRandom_jacobian_is_logdet_witness :
  PermuteRandom.__init__ np_reversed [:: [:: 3%N]] 7%Z = Ok permute3 /\
  PermuteRandom.jacobian permute3 [:: [:: [:: 1; 2; 3]]] true
    = Ok (0, permute3) /\
  Rabs (\det (index_jacobian 3 [:: 2; 1; 0]%N)) = 1.
Proof.
split; first by [].
have [jac _ detJ _] :=
  @PermuteRandom_jacobian_is_logdet np_reversed [:: [:: 3%N]] 7%Z permute3
    [:: [:: [:: 1; 2; 3]]] true np_reversedP (erefl _).
by split.
Defined.

(** C8. [mine] is no global of the module; when it is no builtin either,
    the constructor raises [NameError] for every [dims_in] and [scaling],
    so it returns no instance. *)
Theorem LogitTransform_init_raises (builtins : namespace) (dims_in : dims)
  (scaling : R) :
  lookup "mine" builtins = None ->
  LogitTransform.__init__ builtins dims_in scaling = Raise (NameError "mine") /\
  forall l, LogitTransform.__init__ builtins dims_in scaling <> Ok l.
Proof.
by move=> nob; rewrite /LogitTransform.__init__ /read_global /= nob.
Qed.

Lemma LogitTransform_init_raises_witness :
  lookup "mine" some_builtins = None /\
  LogitTransform.__init__ some_builtins [:: [:: 2%N]]
    LogitTransform.default_scaling = Raise (NameError "mine").
Proof.
split; first by [].
exact: (proj1 (@LogitTransform_init_raises some_builtins [:: [:: 2%N]]
                 LogitTransform.default_scaling (erefl _))).
Defined.

(** C9. [output_dims] of [FixedLinearTransform], [LogitTransform] and
    [Fixed1x1Conv] returns its argument; that of [PermuteRandom] returns
    its argument when it has exactly one entry and raises
    [AssertionError] otherwise. No call changes the instance. *)
Theorem output_dims_spec (input_dims : dims) :
  [/\ forall l : PermuteRandom.t,
        PermuteRandom.output_dims l input_dims
        = if size input_dims == 1%N then Ok (input_dims, l)
          else Raise (AssertionError "Can only use 1 input"),
      forall n (l : FixedLinearTransform.t n),
        FixedLinearTransform.output_dims l input_dims = Ok (input_dims, l),
      forall l : LogitTransform.t,
        LogitTransform.output_dims l input_dims = Ok (input_dims, l)
    & forall C (l : Fixed1x1Conv.t C),
        Fixed1x1Conv.output_dims l input_dims = Ok (input_dims, l)].
Proof. by []. Qed.

(** C10. Each alias logs one [DeprecationWarning] and then builds what
    the constructor of the original class builds from the same arguments
    (or raises what it raises); so [forward], [jacobian] and
    [output_dims] on the object of the alias give what they give on the
    object of the original class. *)
Theorem deprecated_aliases_equivalent :
  [/\ forall np (args : dims * Z),
        let built := (permute_layer np args).2 in
        let orig := PermuteRandom.__init__ np args.1 args.2 in
        [/\ (permute_layer np args).1 = [:: DeprecationWarning
              "deprecated_class is deprecated and will be removed in the public release. Use PermuteRandom instead."],
            built = orig,
            forall x rev,
              (l <- built ;; PermuteRandom.forward l x rev)
              = (l <- orig ;; PermuteRandom.forward l x rev),
            forall x rev,
              (l <- built ;; PermuteRandom.jacobian l x rev)
              = (l <- orig ;; PermuteRandom.jacobian l x rev)
          & forall d,
              (l <- built ;; PermuteRandom.output_dims l d)
              = (l <- orig ;; PermuteRandom.output_dims l d)],
      forall n (args : dims * 'M[R]_n * 'rV[R]_n),
        let built := (linear_transform args).2 in
        let orig := FixedLinearTransform.__init__ args.1.1 args.1.2 args.2 in
        [/\ (linear_transform args).1 = [:: DeprecationWarning
              "deprecated_class is deprecated and will be removed in the public release. Use FixedLinearTransform instead."],
            built = orig,
            forall B (x : seq 'M[R]_(B, n)) rev,
              (l <- built ;; FixedLinearTransform.forward l x rev)
              = (l <- orig ;; FixedLinearTransform.forward l x rev),
            forall B (x : seq 'M[R]_(B, n)) rev,
              (l <- built ;; FixedLinearTransform.jacobian l x rev)
              = (l <- orig ;; FixedLinearTransform.jacobian l x rev)
          & forall d,
              (l <- built ;; FixedLinearTransform.output_dims l d)
              = (l <- orig ;; FixedLinearTransform.output_dims l d)]
    & forall C (args : dims * 'M[R]_C),
        let built := (conv_1x1 args).2 in
        let orig := Fixed1x1Conv.__init__ args.1 args.2 in
        [/\ (conv_1x1 args).1 = [:: DeprecationWarning
              "deprecated_class is deprecated and will be removed in the public release. Use Fixed1x1Conv instead."],
            built = orig,
            forall B H W (x : seq (tensor4 B C H W)) rev,
              (l <- built ;; Fixed1x1Conv.forward l x rev)
              = (l <- orig ;; Fixed1x1Conv.forward l x rev),
            forall B H W (x : seq (tensor4 B C H W)) rev,
              (l <- built ;; Fixed1x1Conv.jacobian l x rev)
              = (l <- orig ;; Fixed1x1Conv.jacobian l x rev)
          & forall d,
              (l <- built ;; Fixed1x1Conv.output_dims l d)
              = (l <- orig ;; Fixed1x1Conv.output_dims l d)]].
Proof. by split. Qed.

(** * Further properties of the layers *)

(** ** PermuteRandom *)

Section PermuteMore.

Import PermuteRandom.

Variable np : Z -> nat -> seq nat.
Hypothesis npP : forall s n, perm_eq (np s n) (iota 0 n).

Lemma all_lt_iota (n m : nat) :
  all (fun p => (p < m)%N) (iota 0 n) = (n <= m)%N.
Proof.
apply/allP/idP => [h|le p]; last first.
  by rewrite mem_iota add0n => /andP[_ pn]; apply: leq_trans le.
by case: n h => [|n] // h; apply: h; rewrite mem_iota add0n leqnn.
Qed.

(** [perm_inv] of a constructed layer is the list of the positions in
    [perm] of [0, ..., n-1]. *)
Lemma perm_inv_positions (dims_in : dims) (seed : Z) (l : t) :
  __init__ np dims_in seed = Ok l ->
  perm_inv l = [seq seq.index k (perm l) | k <- iota 0 (in_channels l)].
Proof.
move=> /(init_spec npP) [pP szi inv].
apply: (@eq_from_nth _ 0%N); first by rewrite size_map size_iota.
move=> k; rewrite szi => kn.
by rewrite (nth_map 0%N) ?size_iota // nth_iota // add0n inv.
Qed.

Lemma perm_inv_perm (dims_in : dims) (seed : Z) (l : t) :
  __init__ np dims_in seed = Ok l ->
  perm_eq (perm_inv l) (iota 0 (in_channels l)).
Proof.
move=> ini; have [_ szi _] := init_spec npP ini.
have [uq inr] := init_perm_inv npP ini.
apply: uniq_perm; rewrite ?iota_uniq //.
have sub : {subset perm_inv l <= iota 0 (in_channels l)}.
  by move=> q /(allP inr); rewrite mem_iota add0n.
by have [] := uniq_min_size uq sub; rewrite // size_iota szi.
Qed.

(** [perm] holds, at each [k], the position of [k] in [perm_inv]. *)
Lemma perm_positions (dims_in : dims) (seed : Z) (l : t) (k : nat) :
  __init__ np dims_in seed = Ok l -> (k < in_channels l)%N ->
  nth 0%N (perm l) k = seq.index k (perm_inv l).
Proof.
move=> ini kn; have [pP szi inv] := init_spec npP ini.
have [uq _] := init_perm_inv npP ini.
have szp : size (perm l) = in_channels l by rewrite (perm_size pP) size_iota.
have uqp : uniq (perm l) by rewrite (perm_uniq pP) iota_uniq.
have plt : (nth 0%N (perm l) k < in_channels l)%N.
  have := mem_nth 0%N (s := perm l) (n := k).
  by rewrite szp (perm_mem pP) mem_iota add0n; apply.
have e : nth 0%N (perm_inv l) (nth 0%N (perm l) k) = k.
  by rewrite inv // index_uniq ?szp.
by rewrite -[in RHS]e index_uniq ?szi.
Qed.

(** The value of a forward call on a constructed layer. *)
Lemma Permute_forward_eval (dims_in : dims) (seed : Z) (l : t)
  (x0 : rows) (xs : seq rows) (rev : bool) :
  __init__ np dims_in seed = Ok l ->
  forward l (x0 :: xs) rev
  = if all (fun row => (in_channels l <= size row)%N) x0
    then Ok ([:: [seq [seq nth 0 row p
                      | p <- if rev then perm_inv l else perm l]
                 | row <- x0]], l)
    else Raise IndexError.
Proof.
move=> ini; have [pP _ _] := init_spec npP ini.
have iP := perm_inv_perm ini.
rewrite /forward /= /take_cols.
have wide idx : perm_eq idx (iota 0 (in_channels l)) ->
    all (fun row => all (fun p => (p < size row)%N) idx) x0
    = all (fun row => (in_channels l <= size row)%N) x0.
  by move=> idxP; apply: eq_all => row; rewrite (perm_all _ idxP) all_lt_iota.
by case: rev => /=; rewrite wide //; case: ifP.
Qed.

(** Indexing a row of at least [n] entries with a rearrangement [idx] of
    [0..n-1] and then with the positions [inv] of [0..n-1] in [idx] gives
    the first [n] entries of the row. *)
Lemma unpermute_wide (l : t) (row : seq R) :
  perm_eq (perm l) (iota 0 (in_channels l)) ->
  size (perm_inv l) = in_channels l ->
  (forall k, (k < in_channels l)%N ->
     nth 0%N (perm_inv l) k = seq.index k (perm l)) ->
  (in_channels l <= size row)%N ->
  [seq nth 0 [seq nth 0 row p | p <- perm l] q | q <- perm_inv l]
  = take (in_channels l) row.
Proof.
move=> pP szi inv wide.
have -> : [seq nth 0 row p | p <- perm l]
          = [seq nth 0 (take (in_channels l) row) p | p <- perm l].
  apply/eq_in_map => p; rewrite (perm_mem pP) mem_iota add0n /= => pn.
  by rewrite nth_take.
by apply: unpermute_row => //; rewrite size_takel.
Qed.

End PermuteMore.

(** X1. The constructor raises [IndexError] when [dims_in[0][0]] does
    not exist, and otherwise [ValueError] when [seed] is not between 0 and
    [2**32 - 1]; in every other case it succeeds and stores
    [dims_in[0][0]] as [in_channels], numpy's permutation as [perm], and
    as [perm_inv] the position in [perm] of each of [0, ..., n-1]: the
    loop never writes outside the array. *)
Theorem PermuteRandom_init_characterised (np : Z -> nat -> seq nat)
  (dims_in : dims) (seed : Z) :
  (forall s n, perm_eq (np s n) (iota 0 n)) ->
  PermuteRandom.__init__ np dims_in seed
  = match dims_in with
    | (n :: _) :: _ =>
        if PermuteRandom.seed_ok seed then
          Ok (PermuteRandom.Build n (np seed n)
                [seq seq.index k (np seed n) | k <- iota 0 n])
        else Raise (ValueError "Seed must be between 0 and 2**32 - 1")
    | _ => Raise IndexError
    end.
Proof.
move=> npP; case: dims_in => [|[|n d0] ds] //.
case ok : (PermuteRandom.seed_ok seed); last first.
  by rewrite /PermuteRandom.__init__ /= ok.
case ini : (PermuteRandom.__init__ np ((n :: d0) :: ds) seed) => [l|e].
  have eqi := perm_inv_positions npP ini.
  move: ini eqi; rewrite /PermuteRandom.__init__ /= ok.
  by case: PermuteRandom.fill_inverse => //= pinv [<-] /= ->.
move: ini; rewrite /PermuteRandom.__init__ /= ok.
have pP := npP seed n.
have uq : uniq (np seed n) by rewrite (perm_uniq pP) iota_uniq.
have inr : all (fun q => (q < size (nseq (size (np seed n)) 0%N))%N) (np seed n).
  apply/allP=> q; rewrite (perm_mem pP) mem_iota size_nseq.
  by rewrite (perm_size pP) size_iota.
by have [acc' [-> _ _]] := fill_inverse_spec 0 uq inr.
Qed.

Lemma PermuteRandom_init_characterised_witness :
  PermuteRandom.__init__ np_reversed [:: [:: 3%N]] 4294967296%Z
  = Raise (ValueError "Seed must be between 0 and 2**32 - 1").
Proof.
exact: (@PermuteRandom_init_characterised np_reversed [:: [:: 3%N]]
          4294967296%Z np_reversedP).
Defined.

(** X2. In a constructed layer [perm] and [perm_inv] both have
    [in_channels] entries and are inverse to each other as index maps:
    [perm[perm_inv[k]] = k] and [perm_inv[perm[k]] = k] for every
    [k < in_channels]. *)
Theorem PermuteRandom_perm_mutually_inverse (np : Z -> nat -> seq nat)
  (dims_in : dims) (seed : Z) (l : PermuteRandom.t) (k : nat) :
  (forall s n, perm_eq (np s n) (iota 0 n)) ->
  PermuteRandom.__init__ np dims_in seed = Ok l ->
  (k < PermuteRandom.in_channels l)%N ->
  [/\ size (PermuteRandom.perm l) = PermuteRandom.in_channels l,
      size (PermuteRandom.perm_inv l) = PermuteRandom.in_channels l,
      nth 0%N (PermuteRandom.perm l) (nth 0%N (PermuteRandom.perm_inv l) k)
      = k
    & nth 0%N (PermuteRandom.perm_inv l) (nth 0%N (PermuteRandom.perm l) k)
      = k].
Proof.
move=> npP ini kn; have [pP szi inv] := init_spec npP ini.
have iP := perm_inv_perm npP ini.
split=> //; first by rewrite (perm_size pP) size_iota.
  by rewrite inv // nth_index // (perm_mem pP) mem_iota.
by rewrite (perm_positions npP ini) // nth_index // (perm_mem iP) mem_iota.
Qed.

Lemma PermuteRandom_perm_mutually_inverse_witness :
  [/\ size (PermuteRandom.perm permute3) = 3%N,
      size (PermuteRandom.perm_inv permute3) = 3%N,
      nth 0%N (PermuteRandom.perm permute3)
        (nth 0%N (PermuteRandom.perm_inv permute3) 1) = 1%N
    & nth 0%N (PermuteRandom.perm_inv permute3)
        (nth 0%N (PermuteRandom.perm permute3) 1) = 1%N].
Proof.
exact: (@PermuteRandom_perm_mutually_inverse np_reversed [:: [:: 3%N]] 0%Z
          permute3 1%N np_reversedP (erefl _) (erefl _)).
Defined.

(** X3. On a constructed layer a forward call in either direction
    succeeds exactly when every row of [x[0]] has at least [in_channels]
    entries, and raises [IndexError] otherwise; on success each output
    row has exactly [in_channels] entries, read from the input row at the
    positions of [perm] (forward) or [perm_inv] (reverse). Inputs after
    the first are ignored. *)
Theorem PermuteRandom_forward_defined (np : Z -> nat -> seq nat)
  (dims_in : dims) (seed : Z) (l : PermuteRandom.t) (x0 : rows)
  (xs : seq rows) (rev : bool) :
  (forall s n, perm_eq (np s n) (iota 0 n)) ->
  PermuteRandom.__init__ np dims_in seed = Ok l ->
  let idx := if rev then PermuteRandom.perm_inv l else PermuteRandom.perm l in
  size idx = PermuteRandom.in_channels l /\
  PermuteRandom.forward l (x0 :: xs) rev
  = if all (fun row => (PermuteRandom.in_channels l <= size row)%N) x0
    then Ok ([:: [seq [seq nth 0 row p | p <- idx] | row <- x0]], l)
    else Raise IndexError.
Proof.
move=> npP ini /=; split.
  2: exact: (@Permute_forward_eval np npP dims_in seed l x0 xs rev ini).
have [pP szi _] := init_spec npP ini.
by case: rev => //; rewrite (perm_size pP) size_iota.
Qed.

Lemma PermuteRandom_forward_defined_witness :
  PermuteRandom.forward permute3 [:: [:: [:: 1; 2]]] false
  = Raise IndexError.
Proof.
have [_] := @PermuteRandom_forward_defined np_reversed [:: [:: 3%N]] 0%Z
              permute3 [:: [:: 1; 2]] [::] false np_reversedP (erefl _).
exact.
Defined.

(** X4. On a constructed layer, a call in one direction followed by a
    call in the other direction on its result returns, for every row of
    at least [in_channels] entries, the first [in_channels] entries of
    that row: the batch itself when the rows have exactly [in_channels]
    entries, a truncated batch when they are wider. This holds for
    forward then reverse and for reverse then forward. *)
Theorem PermuteRandom_roundtrip_keeps_channels
  (np : Z -> nat -> seq nat) (dims_in : dims) (seed : Z)
  (l : PermuteRandom.t) (x0 : rows) (rev : bool) :
  (forall s n, perm_eq (np s n) (iota 0 n)) ->
  PermuteRandom.__init__ np dims_in seed = Ok l ->
  all (fun row => (PermuteRandom.in_channels l <= size row)%N) x0 ->
  exists y,
    PermuteRandom.forward l [:: x0] rev = Ok ([:: y], l) /\
    PermuteRandom.forward l [:: y] (~~ rev)
    = Ok ([:: [seq take (PermuteRandom.in_channels l) row | row <- x0]], l).
Proof.
move=> npP ini wide; have [pP szi inv] := init_spec npP ini.
have iP := perm_inv_perm npP ini.
have szp : size (PermuteRandom.perm l) = PermuteRandom.in_channels l.
  by rewrite (perm_size pP) size_iota.
have eval := @Permute_forward_eval np npP dims_in seed l.
eexists; split; first by rewrite eval // wide.
rewrite eval // all_map [X in if X then _ else _](_ : _ = true).
  apply: (introT allP) => row _ /=; rewrite size_map.
  by case: (rev); rewrite ?szi ?szp.
congr (Ok ([:: _], l)); rewrite -map_comp; apply/eq_in_map=> row rin /=.
have rwide := allP wide row rin; case: rev => /=.
  pose l' := PermuteRandom.Build (PermuteRandom.in_channels l)
               (PermuteRandom.perm_inv l) (PermuteRandom.perm l).
  apply: (@unpermute_wide l' row) => // k kn.
  exact: (perm_positions npP ini).
exact: unpermute_wide.
Qed.

Lemma PermuteRandom_roundtrip_keeps_channels_witness :
  exists y,
    PermuteRandom.forward permute3 [:: [:: [:: 1; 2; 3; 4]]] false
    = Ok ([:: y], permute3) /\
    PermuteRandom.forward permute3 [:: y] true
    = Ok ([:: [seq take 3 row | row <- [:: [:: 1; 2; 3; 4]]]], permute3).
Proof.
exact: (@PermuteRandom_roundtrip_keeps_channels np_reversed [:: [:: 3%N]]
          0%Z permute3 [:: [:: 1; 2; 3; 4]] false np_reversedP (erefl _)
          (erefl _)).
Defined.

(** X5. On a batch whose rows have exactly [in_channels] entries, a call
    in either direction returns as many rows, and each output row is a
    rearrangement of the input row at the same place: no entry is lost,
    duplicated or changed. *)
Theorem PermuteRandom_forward_rearranges (np : Z -> nat -> seq nat)
  (dims_in : dims) (seed : Z) (l : PermuteRandom.t) (x0 : rows)
  (rev : bool) :
  (forall s n, perm_eq (np s n) (iota 0 n)) ->
  PermuteRandom.__init__ np dims_in seed = Ok l ->
  all (fun row => size row == PermuteRandom.in_channels l) x0 ->
  exists y,
    [/\ PermuteRandom.forward l [:: x0] rev = Ok ([:: y], l),
        size y = size x0
      & forall i, perm_eq (nth [::] y i) (nth [::] x0 i)].
Proof.
move=> npP ini shape; have [pP _ _] := init_spec npP ini.
have iP := perm_inv_perm npP ini.
have wide : all (fun row => (PermuteRandom.in_channels l <= size row)%N) x0.
  by apply/allP=> row /(allP shape) /eqP ->.
have eval := @Permute_forward_eval np npP dims_in seed l.
eexists; split; first by rewrite eval // wide.
  by rewrite size_map.
move=> i; case: (ltnP i (size x0)) => [lt|ge]; last first.
  by rewrite !nth_default ?size_map.
rewrite (nth_map [::]) //; set row := nth _ x0 i.
have szr : size row = PermuteRandom.in_channels l.
  by apply/eqP; apply: (allP shape); apply: mem_nth.
have idxP : perm_eq (if rev then PermuteRandom.perm_inv l
                     else PermuteRandom.perm l)
              (iota 0 (PermuteRandom.in_channels l)) by case: (rev).
by rewrite (perm_trans (perm_map _ idxP)) // -szr -/(mkseq _ _) mkseq_nth.
Qed.

Lemma PermuteRandom_forward_rearranges_witness :
  exists y,
    [/\ PermuteRandom.forward permute3 [:: [:: [:: 1; 2; 3]]] true
        = Ok ([:: y], permute3),
        size y = size [:: [:: (1 : R); 2; 3]]
      & forall i, perm_eq (nth [::] y i) (nth [::] [:: [:: 1; 2; 3]] i)].
Proof.
exact: (@PermuteRandom_forward_rearranges np_reversed [:: [:: 3%N]] 0%Z
          permute3 [:: [:: 1; 2; 3]] true np_reversedP (erefl _) (erefl _)).
Defined.

(** ** FixedLinearTransform *)

Lemma add_sub_bias (B n : nat) (x : 'M[R]_(B, n)) (v : 'rV[R]_n) :
  FixedLinearTransform.add_bias (FixedLinearTransform.sub_bias x v) v = x.
Proof. by apply/matrixP=> i j; rewrite !mxE subrK. Qed.

Lemma linear4_built (dims_in : dims) :
  FixedLinearTransform.__init__ dims_in M4 0 = Ok linear4.
Proof. by apply: Linear_init_scalar; Rlra. Qed.

(** X6. After a successful constructor call, a call in one direction
    followed by a call in the other direction on its result returns the
    batch it started from: reverse undoes forward and forward undoes
    reverse (in exact arithmetic). *)
Theorem FixedLinearTransform_inverse_both_ways (n B : nat) (dims_in : dims)
  (M0 : 'M[R]_n) (b0 : 'rV[R]_n) (l : FixedLinearTransform.t n)
  (x : 'M[R]_(B, n)) (rev : bool) :
  FixedLinearTransform.__init__ dims_in M0 b0 = Ok l ->
  exists y,
    FixedLinearTransform.forward l [:: x] rev = Ok ([:: y], l) /\
    FixedLinearTransform.forward l [:: y] (~~ rev) = Ok ([:: x], l).
Proof.
move=> /Linear_init_spec [unitM eqM eqMi eqb _].
have unitT : M0^T \in unitmx by rewrite unitmx_tr.
case: rev; eexists; split; rewrite /FixedLinearTransform.forward /=; eauto.
  by rewrite eqM eqMi mulmxKV // add_sub_bias.
by rewrite sub_add_bias eqM eqMi mulmxK.
Qed.

Lemma FixedLinearTransform_inverse_both_ways_witness :
  exists y,
    FixedLinearTransform.forward linear4 [:: (1%:M : 'M[R]_(1, 1))] true
    = Ok ([:: y], linear4) /\
    FixedLinearTransform.forward linear4 [:: y] (~~ true)
    = Ok ([:: (1%:M : 'M[R]_(1, 1))], linear4).
Proof.
exact: (@FixedLinearTransform_inverse_both_ways 1 1 [:: [:: 1%N]] M4 0
          linear4 1%:M true (linear4_built _)).
Defined.



(** X9. An invertible matrix whose first diagonal entry is not positive
    is rejected too: the constructor raises the [RuntimeError] of
    [cholesky]. So the constructor does not accept every invertible
    matrix (for instance not [-1] times the identity). *)
Theorem FixedLinearTransform_init_not_positive (n : nat) (dims_in : dims)
  (M0 : 'M[R]_n.+1) (b0 : 'rV[R]_n.+1) :
  \det M0 <> 0 -> (M0 0%R 0%R <= 0)%Re ->
  FixedLinearTransform.__init__ dims_in M0 b0
  = Raise (RuntimeError OpCholesky).
Proof.
move=> /eqP detn le0; rewrite /FixedLinearTransform.__init__.
rewrite unitmx_tr unitmxE unitfE detn /= /Rltb.
case: Rlt_dec => // lt0.
by case: (Rlt_irrefl 0); apply: Rlt_le_trans lt0 le0.
Qed.

Lemma FixedLinearTransform_init_not_positive_witness :
  FixedLinearTransform.__init__ [:: [:: 1%N]] ((-1)%Re%:M : 'M[R]_1) 0
  = Raise (RuntimeError OpCholesky).
Proof.
apply: (@FixedLinearTransform_init_not_positive 0 [:: [:: 1%N]]
          (-1)%Re%:M 0).
  by rewrite det_scalar1; to_reals; Rlra.
by rewrite mxE eqxx mulr1n; to_reals; Rlra.
Defined.

Lemma FixedLinearTransform_logDetM_half_witness :
  (0 < \det M4)%Re /\
  FixedLinearTransform.logDetM linear4 = (ln (Rabs (\det M4)) / 2)%Re.
Proof.
exact: (@FixedLinearTransform_logDetM_half 1 [:: [:: 1%N]] M4 0 linear4
          (tr_scalar_mx _ _) (linear4_built _)).
Defined.

(** ** Fixed1x1Conv *)

Lemma conv2_built (dims_in : dims) :
  Fixed1x1Conv.__init__ dims_in M2 = Ok conv2.
Proof. by apply: Conv_init_scalar; to_reals; Rlra. Qed.

(** X10. After a successful constructor call, a call in one direction
    followed by a call in the other direction on its result returns the
    tensor it started from: reverse undoes forward and forward undoes
    reverse (in exact arithmetic). *)
Theorem Fixed1x1Conv_inverse_both_ways (B C H W : nat) (dims_in : dims)
  (M0 : 'M[R]_C) (l : Fixed1x1Conv.t C) (x : tensor4 B C H W) (rev : bool) :
  Fixed1x1Conv.__init__ dims_in M0 = Ok l ->
  exists y,
    Fixed1x1Conv.forward l [:: x] rev = Ok ([:: y], l) /\
    Fixed1x1Conv.forward l [:: y] (~~ rev) = Ok ([:: x], l).
Proof.
move=> /Conv_init_spec [unitM eqM eqMi _].
have unitT : M0^T \in unitmx by rewrite unitmx_tr.
case: rev; eexists; split; rewrite /Fixed1x1Conv.forward /=; eauto.
  by rewrite conv2d_comp eqM eqMi mulmxV // conv2d_id.
by rewrite conv2d_comp eqM eqMi mulVmx // conv2d_id.
Qed.

Lemma Fixed1x1Conv_inverse_both_ways_witness :
  exists y,
    Fixed1x1Conv.forward conv2 [:: image_1x2] true = Ok ([:: y], conv2) /\
    Fixed1x1Conv.forward conv2 [:: y] (~~ true)
    = Ok ([:: image_1x2], conv2).
Proof.
exact: (@Fixed1x1Conv_inverse_both_ways 1 1 1 2 [:: [:: 1; 1; 2]%N] M2
          conv2 image_1x2 true (conv2_built _)).
Defined.

(** X11. Forward mixes the channels at each pixel on its own: the output
    at sample [s], channel [o], pixel [(h, w)] is the sum over the input
    channels [i] of [M[i][o]] times the input at [(s, i, h, w)]. The
    weight is the transpose of the constructor's [M], so the channel
    vector at a pixel is multiplied by [M^T]. *)
Theorem Fixed1x1Conv_forward_pixelwise (B C H W : nat) (dims_in : dims)
  (M0 : 'M[R]_C) (l : Fixed1x1Conv.t C) (x : tensor4 B C H W) :
  Fixed1x1Conv.__init__ dims_in M0 = Ok l ->
  exists2 y,
    Fixed1x1Conv.forward l [:: x] false = Ok ([:: y], l)
    & forall s o h w, y (s, o) h w = \sum_i M0 i o * x (s, i) h w.
Proof.
move=> /Conv_init_spec [_ eqM _ _]; eexists; first by [].
move=> s o h w; rewrite ffunE /= summxE; apply: eq_bigr => i _.
by rewrite eqM !mxE.
Qed.

Lemma Fixed1x1Conv_forward_pixelwise_witness :
  exists2 y,
    Fixed1x1Conv.forward conv2 [:: image_1x2] false = Ok ([:: y], conv2)
    & forall s o h w, y (s, o) h w = \sum_i M2 i o * image_1x2 (s, i) h w.
Proof.
exact: (@Fixed1x1Conv_forward_pixelwise 1 1 1 2 [:: [:: 1; 1; 2]%N] M2
          conv2 image_1x2 (conv2_built _)).
Defined.

Lemma Fixed1x1Conv_jacobian_spec_witness :
  Fixed1x1Conv.jacobian conv2 [:: image_1x2] true
  = Ok (nseq 1 (if true then - ln (Rabs (\det M2))
                else ln (Rabs (\det M2))), conv2).
Proof.
exact: (@Fixed1x1Conv_jacobian_spec 1 1 1 2 [:: [:: 1; 1; 2]%N] M2 conv2
          image_1x2 true (conv2_built _)).
Defined.

(** X13. Two layers in a row act as one layer: when the constructor
    accepts [M1] and [M2] it accepts their product [M1 M2]; forward of
    the first layer followed by forward of the second gives what forward
    of the layer of [M1 M2] gives, and the [logDetM] of that layer is the
    sum of the two [logDetM]. *)
Theorem Fixed1x1Conv_compose (B C H W : nat) (dims_in : dims)
  (M1 M2' : 'M[R]_C) (l1 l2 : Fixed1x1Conv.t C) (x : tensor4 B C H W) :
  Fixed1x1Conv.__init__ dims_in M1 = Ok l1 ->
  Fixed1x1Conv.__init__ dims_in M2' = Ok l2 ->
  exists l12 y z,
    [/\ Fixed1x1Conv.__init__ dims_in (M1 *m M2') = Ok l12,
        Fixed1x1Conv.forward l1 [:: x] false = Ok ([:: y], l1),
        Fixed1x1Conv.forward l2 [:: y] false = Ok ([:: z], l2),
        Fixed1x1Conv.forward l12 [:: x] false = Ok ([:: z], l12)
      & Fixed1x1Conv.logDetM l12
        = (Fixed1x1Conv.logDetM l1 + Fixed1x1Conv.logDetM l2)%Re].
Proof.
move=> /Conv_init_spec [unit1 eqM1 _ eqd1] /Conv_init_spec [unit2 eqM2 _ eqd2].
have unit12 : (M1 *m M2')^T \in unitmx by rewrite unitmx_tr unitmx_mul unit1.
have det_pos (A : 'M[R]_C) : A \in unitmx -> (0 < Rabs (\det A))%Re.
  rewrite unitmxE unitfE => /eqP detn; apply: Rabs_pos_lt.
  by move=> d0; apply: detn.
do 3!eexists; split.
- by rewrite /Fixed1x1Conv.__init__ unit12.
- by rewrite /Fixed1x1Conv.forward /=.
- by rewrite /Fixed1x1Conv.forward /=.
- by rewrite /Fixed1x1Conv.forward /= conv2d_comp eqM1 eqM2 trmx_mul.
by rewrite /= eqd1 eqd2 det_mulmx Rabs_mult ln_mult //; apply: det_pos.
Qed.

Lemma Fixed1x1Conv_compose_witness :
  exists l12 y z,
    [/\ Fixed1x1Conv.__init__ [:: [:: 1; 1; 2]%N] (M2 *m M2) = Ok l12,
        Fixed1x1Conv.forward conv2 [:: image_1x2] false = Ok ([:: y], conv2),
        Fixed1x1Conv.forward conv2 [:: y] false = Ok ([:: z], conv2),
        Fixed1x1Conv.forward l12 [:: image_1x2] false = Ok ([:: z], l12)
      & Fixed1x1Conv.logDetM l12
        = (Fixed1x1Conv.logDetM conv2 + Fixed1x1Conv.logDetM conv2)%Re].
Proof.
exact: (@Fixed1x1Conv_compose 1 1 1 2 [:: [:: 1; 1; 2]%N] M2 M2 conv2 conv2
          image_1x2 (conv2_built _) (conv2_built _)).
Defined.

(** ** LogitTransform *)

(** The derivative of the sigmoid. *)
Lemma sigmoid_derivative (v : R) :
  derivable_pt_lim sigmoid v (sigmoid v * (1 - sigmoid v))%Re.
Proof.
pose den := (fct_cte 1 + comp exp (- id))%F.
have dden : derivable_pt_lim den v (0 + exp (- v) * - 1)%Re.
  apply: derivable_pt_lim_plus; first exact: derivable_pt_lim_const.
  apply: derivable_pt_lim_comp; last exact: derivable_pt_lim_exp.
  by apply: derivable_pt_lim_opp; apply: derivable_pt_lim_id.
have epos := exp_pos (- v)%Re.
have dne : den v <> 0%Re.
  by rewrite /den /plus_fct /fct_cte /comp /opp_fct /id; Rlra.
have := derivable_pt_lim_div (fct_cte 1) den v _ _
          (derivable_pt_lim_const 1 v) dden dne.
have -> : ((0 * den v - (0 + exp (- v) * - 1) * fct_cte 1 v) / Rsqr (den v))%Re
          = (sigmoid v * (1 - sigmoid v))%Re.
  rewrite /sigmoid /den /plus_fct /fct_cte /comp /opp_fct /id /Rsqr.
  by to_reals; field; Rlra.
apply: derivable_pt_lim_ext => z.
by rewrite /sigmoid /div_fct /den /plus_fct /fct_cte /comp /opp_fct /id.
Qed.

(** The derivative of the logit of the scaled entry. *)
Lemma scaled_logit_derivative (s v : R) :
  let z := (((2 * v - 1) * s + 1) / 2)%Re in
  (0 < z < 1)%Re ->
  derivable_pt_lim (scaled_logit s) v (s * (/ z + / (1 - z)))%Re.
Proof.
move=> z [z0 z1].
pose zf := (fct_cte (s) * id + fct_cte ((1 - s) / 2))%F.
have zfE w : zf w = (((2 * w - 1) * s + 1) / 2)%Re.
  by rewrite /zf /plus_fct /mult_fct /fct_cte /id; field.
have dz : derivable_pt_lim zf v (s * 1 + 0)%Re.
  apply: derivable_pt_lim_plus; last exact: derivable_pt_lim_const.
  have := derivable_pt_lim_scal id s v 1 (derivable_pt_lim_id v).
  by apply: derivable_pt_lim_ext.
pose omz := (fct_cte 1 - zf)%F.
have domz : derivable_pt_lim omz v (0 - (s * 1 + 0))%Re.
  by apply: derivable_pt_lim_minus => //; apply: derivable_pt_lim_const.
have d1 : derivable_pt_lim (comp ln zf) v (/ zf v * (s * 1 + 0))%Re.
  by apply: derivable_pt_lim_comp => //; apply: derivable_pt_lim_ln; rewrite zfE.
have d2 : derivable_pt_lim (comp ln omz) v (/ omz v * (0 - (s * 1 + 0)))%Re.
  apply: derivable_pt_lim_comp => //; apply: derivable_pt_lim_ln.
  by rewrite /omz /minus_fct /fct_cte zfE -/z; Rlra.
have := derivable_pt_lim_minus _ _ _ _ _ d1 d2.
have -> : (/ zf v * (s * 1 + 0) - / omz v * (0 - (s * 1 + 0)))%Re
          = (s * (/ z + / (1 - z)))%Re.
  by rewrite /omz /minus_fct /fct_cte zfE -/z; field; Rlra.
apply: derivable_pt_lim_ext => w.
by rewrite /scaled_logit /minus_fct /comp /omz /minus_fct /fct_cte !zfE.
Qed.

(** The logit undoes the sigmoid. *)
Lemma logit_sigmoid (v : R) : (ln (sigmoid v) - ln (1 - sigmoid v))%Re = v.
Proof.
rewrite /sigmoid; to_reals.
have epos := exp_pos (- v)%Re; set e := exp _ in epos *.
have ipos : (0 < / (1 + e))%Re by apply: Rinv_0_lt_compat; Rlra.
have -> : (1 / (1 + e))%Re = (/ (1 + e))%Re by Rlra.
have -> : (1 - / (1 + e))%Re = (e * / (1 + e))%Re by field; Rlra.
by rewrite ln_mult // /e ln_exp; Rlra.
Qed.

(** The entries of a batch with one entry. *)
Lemma single_entries (P : R -> Prop) (a : R) :
  P a -> forall row v, row \in single a -> v \in row -> P v.
Proof. by move=> Pa row v; rewrite inE => /eqP ->; rewrite inE => /eqP ->. Qed.

Lemma LogitTransform_roundtrip_scaled_witness :
  exists y l1 l2,
    LogitTransform.forward logit_fresh [:: single 0] false = Ok ([:: y], l1) /\
    LogitTransform.forward l1 [:: y] true
    = Ok ([:: map2d (fun v => ((2 * v - 1) * LogitTransform.scaling logit_fresh
                              + 1) / 2)%Re (single 0)], l2).
Proof.
apply: (@LogitTransform_roundtrip_scaled logit_fresh (single 0)).
apply: single_entries; rewrite /= /LogitTransform.default_scaling; Rlra.
Defined.

(** X15. With scaling 1, reverse followed by forward returns the batch it
    started from, as long as the sigmoid of every entry stays in the
    range that the clamp of [safe_log] leaves alone. *)
Theorem LogitTransform_forward_undoes_reverse (l : LogitTransform.t)
  (y0 : rows) :
  LogitTransform.scaling l = 1%Re ->
  (forall row v, row \in y0 -> v \in row ->
     (1 / 10 ^ 22 <= sigmoid v <= 1 - 1 / 10 ^ 22)%Re) ->
  exists z l1 l2,
    LogitTransform.forward l [:: y0] true = Ok ([:: z], l1) /\
    LogitTransform.forward l1 [:: z] false = Ok ([:: y0], l2).
Proof.
move=> s1 bnd; do 3!eexists; split; first by rewrite /LogitTransform.forward /=.
rewrite /LogitTransform.forward /= s1; congr (Ok ([:: _], _)).
rewrite /map2d -!map_comp -[RHS]map_id; apply/eq_in_map => row rin /=.
rewrite -!map_comp -[RHS]map_id; apply/eq_in_map => v vin /=.
have [lo hi] := bnd row v rin vin.
have -> : (((2 * sigmoid v - 1) * 1 + 1) / 2)%Re = sigmoid v by field.
rewrite !safe_log_id //; last exact: logit_sigmoid.
by to_reals; Rlra.
Qed.

Lemma sigmoid0 : sigmoid 0 = (1 / 2)%Re.
Proof. by rewrite /sigmoid Ropp_0 exp_0; Rlra. Qed.

Lemma small_pos : (0 < 1 / 10 ^ 22)%Re.
Proof. by apply: Rdiv_lt_0_compat; [Rlra | apply: pow_lt; Rlra]. Qed.

Lemma LogitTransform_forward_undoes_reverse_witness :
  exists z l1 l2,
    LogitTransform.forward logit_unit [:: single 0] true = Ok ([:: z], l1) /\
    LogitTransform.forward l1 [:: z] false = Ok ([:: single 0], l2).
Proof.
apply: (@LogitTransform_forward_undoes_reverse logit_unit (single 0)) => //.
by apply: single_entries; rewrite sigmoid0; Rlra.
Defined.

(** X16. The two stored log-Jacobians cancel: when forward is followed by
    reverse on its result, the [last_jac] that reverse stores is, sample
    by sample, minus the [last_jac] that forward stored (as long as the
    clamp of [safe_log] is not hit). *)
Theorem LogitTransform_jacobians_cancel (l : LogitTransform.t) (x0 : rows) :
  (forall row v, row \in x0 -> v \in row ->
     (1 / 10 ^ 22 <= ((2 * v - 1) * LogitTransform.scaling l + 1) / 2
      <= 1 - 1 / 10 ^ 22)%Re) ->
  exists y z l1 l2 j,
    [/\ LogitTransform.forward l [:: x0] false = Ok ([:: y], l1),
        LogitTransform.last_jac l1 = LogitTransform.Batch j,
        LogitTransform.forward l1 [:: y] true = Ok ([:: z], l2)
      & LogitTransform.last_jac l2 = LogitTransform.Batch (neg j)].
Proof.
move=> bnd; do 5!eexists; split; try by rewrite /LogitTransform.forward /=.
rewrite /=; congr LogitTransform.Batch.
rewrite /neg /sum_last /map2d -!map_comp; apply/eq_in_map => row rin /=.
rewrite -!map_comp !big_map big_seq [X in - X]big_seq -sumrN.
apply: eq_bigr => v vin /=; rewrite (Logit_entry_roundtrip (bnd row v rin vin)).
have e (a c : R) : (a + c)%Re = (- (- a - c))%Re by Rlra.
exact: e.
Qed.

Lemma LogitTransform_jacobians_cancel_witness :
  exists y z l1 l2 j,
    [/\ LogitTransform.forward logit_fresh [:: single 0] false
        = Ok ([:: y], l1),
        LogitTransform.last_jac l1 = LogitTransform.Batch j,
        LogitTransform.forward l1 [:: y] true = Ok ([:: z], l2)
      & LogitTransform.last_jac l2 = LogitTransform.Batch (neg j)].
Proof.
apply: (@LogitTransform_jacobians_cancel logit_fresh (single 0)).
by apply: single_entries; rewrite /= /LogitTransform.default_scaling; Rlra.
Defined.

(** X17. The log-Jacobian that reverse stores is the right one: the
    sigmoid has derivative [sigmoid v * (1 - sigmoid v)] at every [v], and
    reverse stores for each sample the sum over its entries of the
    logarithm of that derivative (as long as the clamp of [safe_log] is
    not hit). *)
Theorem LogitTransform_reverse_jacobian_is_log_derivative
  (l : LogitTransform.t) (y0 : rows) :
  (forall row v, row \in y0 -> v \in row ->
     (1 / 10 ^ 22 <= sigmoid v <= 1 - 1 / 10 ^ 22)%Re) ->
  (forall v, derivable_pt_lim sigmoid v (sigmoid v * (1 - sigmoid v))%Re) /\
  LogitTransform.last_jac
    (state_after (LogitTransform.forward l [:: y0] true) l)
  = LogitTransform.Batch
      [seq \sum_(v <- row) ln (sigmoid v * (1 - sigmoid v))%Re | row <- y0].
Proof.
move=> bnd; split; first exact: sigmoid_derivative.
rewrite /LogitTransform.forward /=; congr LogitTransform.Batch.
rewrite /sum_last /map2d -!map_comp; apply/eq_in_map => row rin /=.
rewrite !big_map big_seq [RHS]big_seq; apply: eq_bigr => v vin /=.
have [lo hi] := bnd row v rin vin; have sp := small_pos.
rewrite !safe_log_id //; first by to_reals; Rlra.
by rewrite ln_mult //; Rlra.
Qed.

Lemma LogitTransform_reverse_jacobian_is_log_derivative_witness :
  LogitTransform.last_jac
    (state_after (LogitTransform.forward logit_fresh [:: single 0] true)
       logit_fresh)
  = LogitTransform.Batch
      [seq \sum_(v <- row) ln (sigmoid v * (1 - sigmoid v))%Re
      | row <- single 0].
Proof.
have bnd : forall row v, row \in single 0 -> v \in row ->
    (1 / 10 ^ 22 <= sigmoid v <= 1 - 1 / 10 ^ 22)%Re.
  by apply: single_entries; rewrite sigmoid0; Rlra.
exact: (proj2 (@LogitTransform_reverse_jacobian_is_log_derivative
                 logit_fresh (single 0) bnd)).
Defined.

(** X18. The log-Jacobian that forward stores leaves out the scaling: with
    a positive scaling [s] and no entry hitting the clamp, forward
    returns [scaled_logit s] of every entry, whose derivative at [v] is
    [s * (1/z + 1/(1 - z))] for the scaled entry [z]; and forward stores
    for each sample the sum over its entries of the logarithm of that
    derivative minus [log s]. *)
Theorem LogitTransform_forward_jacobian_up_to_scale (l : LogitTransform.t)
  (x0 : rows) :
  let s := LogitTransform.scaling l in
  let z v := (((2 * v - 1) * s + 1) / 2)%Re in
  (0 < s)%Re ->
  (forall row v, row \in x0 -> v \in row ->
     (1 / 10 ^ 22 <= z v <= 1 - 1 / 10 ^ 22)%Re) ->
  [/\ forall v, (0 < z v < 1)%Re ->
        derivable_pt_lim (scaled_logit s) v (s * (/ z v + / (1 - z v)))%Re,
      value_of (LogitTransform.forward l [:: x0] false)
      = Ok [:: map2d (scaled_logit s) x0]
    & LogitTransform.last_jac
        (state_after (LogitTransform.forward l [:: x0] false) l)
      = LogitTransform.Batch
          [seq \sum_(v <- row)
                 (ln (s * (/ z v + / (1 - z v))) - ln s)%Re
          | row <- x0]].
Proof.
move=> s z spos bnd; have sp := small_pos; split.
- by move=> v zv; apply: scaled_logit_derivative.
- rewrite /LogitTransform.forward /=; congr (Ok [:: _]).
  rewrite /map2d -!map_comp; apply/eq_in_map => row rin /=.
  rewrite -!map_comp; apply/eq_in_map => v vin /=.
  have [lo hi] := bnd row v rin vin; rewrite /z /s in lo hi.
  by rewrite !safe_log_id //; to_reals; Rlra.
rewrite /LogitTransform.forward /=; congr LogitTransform.Batch.
rewrite /sum_last /map2d -!map_comp; apply/eq_in_map => row rin /=.
rewrite -!map_comp !big_map big_seq [RHS]big_seq; apply: eq_bigr => v vin /=.
have [lo hi] := bnd row v rin vin.
have -> : (/ z v + / (1 - z v))%Re = (/ (z v * (1 - z v)))%Re by field; Rlra.
have zpos : (0 < z v * (1 - z v))%Re by apply: Rmult_lt_0_compat; Rlra.
rewrite ln_mult //; first exact: Rinv_0_lt_compat.
rewrite ln_Rinv // ln_mult; try Rlra.
rewrite /z /s in lo hi *; rewrite !safe_log_id //; first by to_reals; Rlra.
have e (a c d : R) : (- a - c)%Re = (d + - (a + c) - d)%Re by Rlra.
exact: e.
Qed.

Lemma LogitTransform_forward_jacobian_up_to_scale_witness :
  value_of (LogitTransform.forward logit_fresh [:: single 0] false)
  = Ok [:: map2d (scaled_logit (LogitTransform.scaling logit_fresh))
             (single 0)].
Proof.
have spos : (0 < LogitTransform.scaling logit_fresh)%Re.
  by rewrite /= /LogitTransform.default_scaling; Rlra.
have bnd : forall row v, row \in single 0 -> v \in row ->
    (1 / 10 ^ 22
     <= ((2 * v - 1) * LogitTransform.scaling logit_fresh + 1) / 2
     <= 1 - 1 / 10 ^ 22)%Re.
  by apply: single_entries; rewrite /= /LogitTransform.default_scaling; Rlra.
by have [] := @LogitTransform_forward_jacobian_up_to_scale logit_fresh
                (single 0) spos bnd.
Defined.
